(** * Antibody: the invisible-character interference engine of [main.py]

    A shallow embedding of the core of [main.py] (the tables
    [INVISIBLE_CHAR_POOLS], [INTERFERENCE_LEVELS], [INVALID_POS_CHARS] and
    the functions [get_random_invisible_char], [is_valid_insert_pos],
    [insert_adaptive_invisible_traps], and the registry lookup of
    [process_input]), followed by the properties stated about it.

    Conventions.
    - A Python [str] is a sequence of Unicode code points: [list N].
    - A Python [dict] with string keys is a [gmap string _].
    - The ambient module [random] is an explicit random source: a tape of
      raw outcomes and a cursor; every call of [random.random] or
      [random.choice] reads the outcome under the cursor and advances it.
    - Python exceptions are the [Raise] branch of [result]. *)

From Stdlib Require Import Ascii ZArith QArith Lia.
From stdpp Require Import gmap strings list sorting.

Local Open Scope Z_scope.

(* ===================================================================== *)
(** ** Python values, exceptions and the random source                   *)
(* ===================================================================== *)

(** A character is a code point. *)
Abbreviation char := N (only parsing).

Definition ord (a : Ascii.ascii) : char := Ascii.N_of_ascii a.

(** The code points of an ASCII literal.  A backslash is an ordinary
    character here, exactly as in a Python raw string. *)
Definition str (s : string) : list char := ord <$> String.list_ascii_of_string s.

Inductive exn : Set := KeyError | IndexError | ZeroDivisionError.

Inductive result (A : Type) : Type :=
| Ok (a : A)
| Raise (e : exn).
Arguments Ok {A} a.
Arguments Raise {A} e.

(** The random source: [tape] holds the raw outcome of every future call,
    [cursor] counts the calls made so far. *)
Record RandomSource : Type := mkRandom { tape : nat → N; cursor : nat }.

Definition advance (g : RandomSource) : RandomSource :=
  {| tape := tape g; cursor := S (cursor g) |}.

(** Computations that read the random source and may raise. *)
Definition Rand (A : Type) : Type := RandomSource → result (A * RandomSource).

#[global] Instance Rand_ret : MRet Rand := λ A a g, Ok (a, g).
#[global] Instance Rand_bind : MBind Rand := λ A B f m g,
  match m g with
  | Ok (a, g') => f a g'
  | Raise e => Raise e
  end.

Definition raise {A} (e : exn) : Rand A := λ _, Raise e.

(** [for x in xs: acc = body(acc, x)]. *)
Fixpoint foldM {A B} (body : B → A → Rand B) (acc : B) (xs : list A) : Rand B :=
  match xs with
  | [] => mret acc
  | x :: xs' => acc' ← body acc x; foldM body acc' xs'
  end.

(** [[body() for _ in range(n)]]. *)
Fixpoint replicateM {A} (n : nat) (body : Rand A) : Rand (list A) :=
  match n with
  | O => mret []
  | S n' => x ← body; xs ← replicateM n' body; mret (x :: xs)
  end.

(** [random.random()]: a double [k / 2^53] with [0 <= k < 2^53]. *)
Definition random_random : Rand Q := λ g,
  Ok (Z.of_N (tape g (cursor g) mod 2 ^ 53)%N # 2 ^ 53, advance g).

(** [random.choice(seq)]: [IndexError] on an empty sequence, else the
    element at an index below [len(seq)]. *)
Definition random_choice {A} (seq : list A) : Rand A := λ g,
  match seq with
  | [] => Raise IndexError
  | x :: _ =>
      Ok (nth (N.to_nat (tape g (cursor g) mod N.of_nat (length seq))%N) seq x,
          advance g)
  end.

(** [d[key]]: [KeyError] when the key is absent. *)
Definition dict_getitem {V} (d : gmap string V) (key : string) : Rand V :=
  match d !! key with
  | Some v => mret v
  | None => raise KeyError
  end.

(** [l[i]] for [i >= 0]: [IndexError] out of range. *)
Definition list_getitem {A} (l : list A) (i : nat) : Rand A :=
  match l !! i with
  | Some x => mret x
  | None => raise IndexError
  end.

(** [l.insert(pos, x)] for [pos >= 0]: [x] goes before index [pos], or at
    the end when [pos] is past it. *)
Definition list_insert_at {A} (pos : nat) (x : A) (l : list A) : list A :=
  take pos l ++ x :: drop pos l.

(** [x < y] on exactly represented numbers. *)
Definition Qltb (x y : Q) : bool :=
  Qnum x * Z.pos (Qden y) <? Qnum y * Z.pos (Qden x).

(** [c.isspace()] for one code point, the test behind [str.strip()]. *)
Definition isspace (c : char) : bool :=
  ((0x09 <=? c) && (c <=? 0x0D) || (0x1C <=? c) && (c <=? 0x20)
   || (c =? 0x85) || (c =? 0xA0) || (c =? 0x1680)
   || (0x2000 <=? c) && (c <=? 0x200A)
   || (c =? 0x2028) || (c =? 0x2029) || (c =? 0x202F) || (c =? 0x205F)
   || (c =? 0x3000))%N.

Fixpoint lstrip (s : list char) : list char :=
  match s with
  | c :: s' => if isspace c then lstrip s' else s
  | [] => []
  end.

Definition rstrip (s : list char) : list char := reverse (lstrip (reverse s)).

(** [text.strip()]. *)
Definition strip (s : list char) : list char := rstrip (lstrip s).

(* ===================================================================== *)
(** ** The tables of [main.py]                                           *)
(* ===================================================================== *)

Definition INVISIBLE_CHAR_POOLS : gmap string (list char) :=
  <["Basic Pool" := [0x200B; 0x200C; 0x200D]%N]>
  (<["Expansion Pool" := [0x00A0; 0x0009; 0x200E]%N]>
  (<["Spare Pool" := [0x202F; 0x2060; 0xFEFF]%N]> ∅)).

Record InterferenceCfg : Type := mkCfg {
  Interval : Z;
  Implantation_Probability : Q;
  Character_Pool : list string
}.

(** The doubles written [0.2], [0.5] and [0.8]. *)
Definition double_0_2 : Q := 3602879701896397 # 18014398509481984.
Definition double_0_5 : Q := 1 # 2.
Definition double_0_8 : Q := 3602879701896397 # 4503599627370496.

Definition Mild : InterferenceCfg :=
  mkCfg 5 double_0_2 ["Basic Pool"].
Definition Moderate : InterferenceCfg :=
  mkCfg 3 double_0_5 ["Basic Pool"; "Expansion Pool"].
Definition Severe : InterferenceCfg :=
  mkCfg 2 double_0_8 ["Basic Pool"; "Expansion Pool"; "Spare Pool"].

Definition INTERFERENCE_LEVELS : gmap string InterferenceCfg :=
  <["Mild Interference" := Mild]>
  (<["Moderate Interference" := Moderate]>
  (<["Severe interference" := Severe]> ∅)).

Definition space : char := 0x20%N.

(** The raw string literal of line 24, code point by code point: the 32
    ASCII punctuation characters, a space, U+00E3, U+20AC, U+20AC, and the
    six characters backslash, t, backslash, n, backslash, r. *)
Definition INVALID_POS_CHARS : list char :=
  str "!\" ++ [0x22%N] ++ str "#$%&'()*+,-./:;<=>?@[\]^_`{|}~ "
  ++ [0xE3; 0x20AC; 0x20AC]%N ++ str "\t\n\r".

(* ===================================================================== *)
(** ** The functions of [main.py]                                        *)
(* ===================================================================== *)

Definition get_random_invisible_char (used_pools : list string) : Rand char :=
  all_chars ← foldM (λ all_chars pool_name,
                       pool ← dict_getitem INVISIBLE_CHAR_POOLS pool_name;
                       mret (all_chars ++ pool)) [] used_pools;
  random_choice all_chars.

Definition is_valid_insert_pos (prev_char next_char : char) : bool :=
  if bool_decide (prev_char ∈ INVALID_POS_CHARS)
     || bool_decide (next_char ∈ INVALID_POS_CHARS)
  then false else true.

(** One iteration of the marking loop (lines 53 to 59); the loop state is
    [(char_count, insert_positions)]. *)
Definition mark_step (result : list char) (interval : Z) (prob : Q)
    (st : Z * list nat) (i : nat) : Rand (Z * list nat) :=
  let '(char_count, insert_positions) := st in
  prev_char ← list_getitem result (i - 1)%nat;
  next_char ← list_getitem result i;
  if is_valid_insert_pos prev_char next_char then
    let char_count := char_count + 1 in
    if bool_decide (interval = 0) then raise ZeroDivisionError
    else if bool_decide (char_count `mod` interval = 0) then
      r ← random_random;
      if Qltb r prob then mret (char_count, insert_positions ++ [i])
      else mret (char_count, insert_positions)
    else mret (char_count, insert_positions)
  else mret (char_count, insert_positions).

(** The marking loop: [for i in range(1, len(result))]. *)
Definition mark_positions (result : list char) (interval : Z) (prob : Q)
    : Rand (Z * list nat) :=
  foldM (mark_step result interval prob) (0, []) (seq 1 (length result - 1)).

Definition insert_adaptive_invisible_traps (text : list char)
    (interference_cfg : InterferenceCfg) : Rand (list char) :=
  if bool_decide (strip text = []) then mret []
  else
    let interval := Interval interference_cfg in
    let prob := Implantation_Probability interference_cfg in
    let used_pools := Character_Pool interference_cfg in
    let result := text in
    '(char_count, insert_positions) ← mark_positions result interval prob;
    result ← foldM (λ result pos,
                      c ← get_random_invisible_char used_pools;
                      mret (list_insert_at pos c result))
                   result (reverse insert_positions);
    end_mark ← replicateM 2 (get_random_invisible_char used_pools);
    mret (result ++ [space] ++ end_mark).

(** The core of [process_input] (lines 176 to 186): [None] stands for the
    warning dialog shown on blank input. *)
Definition process_input (input_text : list char) (selected_level : string)
    : Rand (option (list char)) :=
  let raw_input := strip input_text in
  if bool_decide (raw_input = []) then mret None
  else
    interference_cfg ← dict_getitem INTERFERENCE_LEVELS selected_level;
    processed_result ← insert_adaptive_invisible_traps raw_input interference_cfg;
    mret (Some processed_result).

(** Two concrete random sources: one whose every outcome is 0 (every
    probability draw succeeds, every choice picks the first character), and
    one whose outcomes vary with the position on the tape. *)
Definition tape0 : RandomSource := mkRandom (λ _, 0%N) 0.
Definition tapeid : RandomSource := mkRandom (λ n, N.of_nat n * 1000000000000001)%N 0.

(** The value a run returns, if it returns. *)
Definition output {A} (r : result (A * RandomSource)) : option A :=
  match r with Ok (a, _) => Some a | Raise _ => None end.

(** The core of [copy_result] (lines 192 to 204), on the plain text of the
    result box: [None] stands for the warning dialog, [Some s] for the
    string [s] handed to the clipboard. *)
Definition copy_result (plain_text : list char) : option (list char) :=
  let processed_result := strip plain_text in
  if bool_decide (processed_result = []) then None
  else Some processed_result.

(** The list [insert_positions] that the marking loop leaves. *)
Definition insert_positions_of (text : list char) (cfg : InterferenceCfg)
    (g : RandomSource) : list nat :=
  match mark_positions text (Interval cfg) (Implantation_Probability cfg) g with
  | Ok ((_, insert_positions), _) => insert_positions
  | Raise _ => []
  end.

(** How many of the positions [ps] are at or before index [j], and how
    many are before position [p]. *)
Definition positions_upto (ps : list nat) (j : nat) : nat :=
  length (filter (λ p, (p ≤ j)%nat) ps).
Definition positions_before (ps : list nat) (p : nat) : nat :=
  length (filter (λ q, (q < p)%nat) ps).

(** The characters that disqualify a boundary, by ranges: the ASCII
    punctuation, the space, U+00E3, U+20AC and the letters n, r, t. *)
Definition disqualifies (c : char) : bool :=
  ((33 <=? c) && (c <=? 47) || (58 <=? c) && (c <=? 64)
   || (91 <=? c) && (c <=? 96) || (123 <=? c) && (c <=? 126)
   || (c =? 32) || (c =? 0xE3) || (c =? 0x20AC)
   || (c =? 110) || (c =? 114) || (c =? 116))%N.


(* ===================================================================== *)
(** ** Notions used to state the properties                              *)
(* ===================================================================== *)

(** A level is registered when some name of [INTERFERENCE_LEVELS] maps to it. *)
Definition registered (cfg : InterferenceCfg) : Prop :=
  ∃ name, INTERFERENCE_LEVELS !! name = Some cfg.

(** The flattened character list that [get_random_invisible_char] builds
    when every pool name resolves. *)
Definition level_chars (used_pools : list string) : list char :=
  mjoin ((λ pool_name, default [] (INVISIBLE_CHAR_POOLS !! pool_name)) <$> used_pools).

(** A configuration on which no lookup, modulus or choice can raise. *)
Definition usable (cfg : InterferenceCfg) : Prop :=
  Interval cfg ≠ 0
  ∧ Forall (λ pool_name, is_Some (INVISIBLE_CHAR_POOLS !! pool_name)) (Character_Pool cfg)
  ∧ level_chars (Character_Pool cfg) ≠ [].

(** Every character of every registered pool. *)
Definition all_pool_chars : list char :=
  mjoin (snd <$> map_to_list INVISIBLE_CHAR_POOLS).

Definition is_pool_char (c : char) : bool := bool_decide (c ∈ all_pool_chars).

(** Removing every character that occurs in a registered pool. *)
Definition remove_invisible (s : list char) : list char :=
  filter (λ c, ¬ is_pool_char c) s.

(** Removing one trailing space, if there is one: what is left of the
    trailing marker once its two pool characters are gone. *)
Definition remove_trailing_space (s : list char) : list char :=
  match reverse s with
  | c :: s' => if bool_decide (c = space) then reverse s' else s
  | [] => []
  end.

(** Removing the last three characters: the marker as it was appended. *)
Definition remove_trailing_marker (s : list char) : list char :=
  take (length s - 3) s.

(** Whether the boundary before index [i] passes [is_valid_insert_pos]. *)
Definition valid_at (text : list char) (i : nat) : bool :=
  match text !! (i - 1)%nat, text !! i with
  | Some prev_char, Some next_char => is_valid_insert_pos prev_char next_char
  | _, _ => false
  end.

(** The internal boundaries [1 .. len-1]. *)
Definition boundaries (text : list char) : list nat := seq 1 (length text - 1).

(** The eligible boundaries: those that pass the validity predicate. *)
Definition eligible_boundaries (text : list char) : list nat :=
  filter (λ i, valid_at text i) (boundaries text).

(** The eligible-boundary counter once boundary [i] has been counted. *)
Definition counter_at (text : list char) (i : nat) : Z :=
  Z.of_nat (length (filter (λ j, valid_at text j) (seq 1 i))).

(** The gate of the random draw at boundary [i]. *)
Definition draw_gated (text : list char) (interval : Z) (i : nat) : bool :=
  valid_at text i && bool_decide (counter_at text i `mod` interval = 0).

Definition draw_boundaries (text : list char) (interval : Z) : list nat :=
  filter (λ i, draw_gated text interval i) (boundaries text).

(** The double that the [k]-th call of the random source returns. *)
Definition draw (g : RandomSource) (k : nat) : Q :=
  Z.of_N (tape g k mod 2 ^ 53)%N # 2 ^ 53.

(** The boundaries among [bs] that get marked when their draws are the
    outcomes [k], [k+1], ... of the tape. *)
Fixpoint marks_of (g : RandomSource) (prob : Q) (k : nat) (bs : list nat) : list nat :=
  match bs with
  | [] => []
  | b :: bs' =>
      if Qltb (draw g k) prob then b :: marks_of g prob (S k) bs'
      else marks_of g prob (S k) bs'
  end.

(** [injected P l k]: [k] is [l] with characters satisfying [P] put in,
    nothing removed, replaced or reordered. *)
Inductive injected (P : char → Prop) : list char → list char → Prop :=
| injected_nil : injected P [] []
| injected_keep x l k : injected P l k → injected P (x :: l) (x :: k)
| injected_put c l k : P c → injected P l k → injected P l (c :: k).

(** Whether iteration [i] of the marking loop, reached in the run that
    starts from [g], moves the cursor of the random source. *)
Definition draw_consumed_at (text : list char) (interval : Z) (prob : Q)
    (g : RandomSource) (i : nat) : bool :=
  match foldM (mark_step text interval prob) (0, []) (seq 1 (i - 1)) g with
  | Ok (st, g1) =>
      match mark_step text interval prob st i g1 with
      | Ok (_, g2) => bool_decide (cursor g2 ≠ cursor g1)
      | Raise _ => false
      end
  | Raise _ => false
  end.

(** The boundaries at which a call of [insert_adaptive_invisible_traps]
    consumes a probability draw: none on blank input, which returns before
    the loop. *)
Definition draws_of_run (text : list char) (cfg : InterferenceCfg)
    (g : RandomSource) : list nat :=
  if bool_decide (strip text = []) then []
  else filter (λ i, draw_consumed_at text (Interval cfg)
                      (Implantation_Probability cfg) g i) (boundaries text).

(** The number of the [2^53] equally likely outcomes of [random.random()]
    that are below [prob]. *)
Definition favourable (prob : Q) : Z :=
  Z.max 0 (Z.min (2 ^ 53) (- ((- (Qnum prob * 2 ^ 53)) / Z.pos (Qden prob)))).

(** The chance that one draw is below [prob]. *)
Definition hit_chance (prob : Q) : Q := favourable prob # 2 ^ 53.

(** The number of boundaries with a draw, on a call with [text]. *)
Definition draw_count (text : list char) (cfg : InterferenceCfg) : Z :=
  if bool_decide (strip text = []) then 0
  else Z.of_nat (length (draw_boundaries text (Interval cfg))).

(** Expected number of in-body insertions: one term per boundary with a
    draw, each the probability of the level. *)
Definition expected_insertions (text : list char) (cfg : InterferenceCfg) : Q :=
  (inject_Z (draw_count text cfg) * Implantation_Probability cfg)%Q.

(** The same with the exact chance of a 53-bit draw falling below the
    probability. *)
Definition expected_insertions_exact (text : list char) (cfg : InterferenceCfg) : Q :=
  (inject_Z (draw_count text cfg) * hit_chance (Implantation_Probability cfg))%Q.

(** The sum of [f k] over the outcomes [k] below [M]. *)
Definition sum_below (M : N) (f : N → Z) : Z :=
  N.peano_rect (λ _, Z) 0 (λ k acc, acc + f k) M.

(** The sum of [F ks] over the lists [ks] of [n] outcomes below [M]. *)
Fixpoint sum_outcomes (M : N) (n : nat) (F : list N → Z) : Z :=
  match n with
  | O => F []
  | S n' => sum_below M (λ k, sum_outcomes M n' (λ ks, F (k :: ks)))
  end.

(** The random source whose first outcomes are [ks]. *)
Definition source_of (ks : list N) : RandomSource :=
  mkRandom (λ i, nth i ks 0%N) 0.

(** The number of characters a call puts into the body of its output:
    what the output has beyond the text and the three characters of the
    marker. *)
Definition in_body_insertions (text : list char) (cfg : InterferenceCfg)
    (g : RandomSource) : Z :=
  match insert_adaptive_invisible_traps text cfg g with
  | Ok (out, _) => Z.of_nat (length out - (length text + 3))
  | Raise _ => 0
  end.

(** The number of probability draws of a call; they are its first
    draws. *)
Definition probability_draws (text : list char) (cfg : InterferenceCfg) : nat :=
  length (draws_of_run text cfg tape0).

(** The mean of [in_body_insertions] over the calls whose probability
    draws take each of their [2^53] outcomes: the expected number of
    in-body insertions when every outcome of [random.random()] is equally
    likely. *)
Definition mean_insertions (text : list char) (cfg : InterferenceCfg) : Q :=
  sum_outcomes (2 ^ 53) (probability_draws text cfg)
    (λ ks, in_body_insertions text cfg (source_of ks))
  # Z.to_pos ((2 ^ 53) ^ Z.of_nat (probability_draws text cfg)).

(* ===================================================================== *)
(** ** Running computations                                              *)
(* ===================================================================== *)

Section running.
Context {A B : Type}.

Lemma bind_Ok (m : Rand A) (f : A → Rand B) g a g' :
  m g = Ok (a, g') → (m ≫= f) g = f a g'.
Proof. intros Hm. unfold mbind, Rand_bind. by rewrite Hm. Qed.

Lemma bind_Raise (m : Rand A) (f : A → Rand B) g e :
  m g = Raise e → (m ≫= f) g = Raise e.
Proof. intros Hm. unfold mbind, Rand_bind. by rewrite Hm. Qed.

Lemma foldM_app (body : B → A → Rand B) acc xs ys g :
  foldM body acc (xs ++ ys) g =
  match foldM body acc xs g with
  | Ok (acc', g') => foldM body acc' ys g'
  | Raise e => Raise e
  end.
Proof.
  revert acc g. induction xs as [|x xs IH]; intros acc g; [done|].
  cbn [foldM app]. unfold mbind, Rand_bind.
  destruct (body acc x g) as [[acc' g']|e]; [apply IH | done].
Qed.
End running.

Lemma advance_advance_n g n :
  advance {| tape := tape g; cursor := cursor g + n |}
  = {| tape := tape g; cursor := cursor g + S n |}.
Proof. unfold advance; cbn. f_equal. lia. Qed.

(* ===================================================================== *)
(** ** The tables                                                        *)
(* ===================================================================== *)

Lemma registered_cases cfg :
  registered cfg → cfg = Mild ∨ cfg = Moderate ∨ cfg = Severe.
Proof.
  intros [name Hname]. unfold INTERFERENCE_LEVELS in Hname.
  rewrite !lookup_insert_Some, lookup_empty in Hname.
  destruct Hname as [[_ <-] | [_ [[_ <-] | [_ [[_ <-] | [_ ?]]]]]]; auto.
  discriminate.
Qed.

Lemma registered_Mild : registered Mild.
Proof. by exists "Mild Interference". Qed.

Lemma registered_Moderate : registered Moderate.
Proof. by exists "Moderate Interference". Qed.

Lemma registered_Severe : registered Severe.
Proof. by exists "Severe interference". Qed.

Lemma registered_usable cfg : registered cfg → usable cfg.
Proof.
  intros Hreg. destruct (registered_cases cfg Hreg) as [-> | [-> | ->]];
    (split; [done | split; [| done]]);
    repeat constructor; by vm_compute; eexists.
Qed.

(** Every character a level draws from is a registered pool character. *)
Lemma level_chars_pool used_pools c :
  c ∈ level_chars used_pools → is_pool_char c = true.
Proof.
  unfold level_chars, is_pool_char. intros Hc. apply bool_decide_eq_true.
  apply list_elem_of_join in Hc as (pool & Hc & Hpool).
  apply list_elem_of_fmap in Hpool as (pool_name & -> & _).
  destruct (INVISIBLE_CHAR_POOLS !! pool_name) as [chars|] eqn:Hlookup;
    [| by apply elem_of_nil in Hc].
  apply list_elem_of_join. exists chars. split; [done|].
  apply list_elem_of_fmap. exists (pool_name, chars). split; [done|].
  by apply elem_of_map_to_list.
Qed.

(** The registered pool characters are the nine listed code points. *)
Lemma is_pool_char_spec c :
  is_pool_char c = true ↔
  c ∈ [0x200B; 0x200C; 0x200D; 0x00A0; 0x0009; 0x200E; 0x202F; 0x2060; 0xFEFF]%N.
Proof.
  unfold is_pool_char. rewrite bool_decide_eq_true.
  let v := eval vm_compute in all_pool_chars in change all_pool_chars with v.
  rewrite !elem_of_cons, !elem_of_nil. tauto.
Qed.

(* ===================================================================== *)
(** ** Drawing an invisible character                                    *)
(* ===================================================================== *)

Lemma random_choice_elem_of {A} (seq : list A) g :
  seq ≠ [] → ∃ x, random_choice seq g = Ok (x, advance g) ∧ x ∈ seq.
Proof.
  intros Hne. destruct seq as [|x0 seq']; [done|].
  unfold random_choice. eexists; split; [reflexivity|].
  apply list_elem_of_In, nth_In.
  pose proof (N.mod_lt (tape g (cursor g)) (N.of_nat (length (x0 :: seq')))) as Hlt.
  cbn [length] in *. lia.
Qed.

Section drawing.
Variable used_pools : list string.
Hypothesis pools_known :
  Forall (λ pool_name, is_Some (INVISIBLE_CHAR_POOLS !! pool_name)) used_pools.
Hypothesis pools_nonempty : level_chars used_pools ≠ [].

Lemma collect_pools acc g :
  foldM (λ all_chars pool_name,
           pool ← dict_getitem INVISIBLE_CHAR_POOLS pool_name;
           mret (all_chars ++ pool)) acc used_pools g
  = Ok (acc ++ level_chars used_pools, g).
Proof.
  clear pools_nonempty. revert acc.
  induction used_pools as [|pool_name rest IH]; intros acc.
  - cbn. by rewrite app_nil_r.
  - apply Forall_cons in pools_known as [[chars Hchars] Hrest].
    cbn [foldM].
    rewrite (bind_Ok _ _ g (acc ++ chars) g).
    + rewrite (IH Hrest). unfold level_chars. cbn. by rewrite Hchars, app_assoc.
    + erewrite bind_Ok; [reflexivity|].
      unfold dict_getitem. by rewrite Hchars.
Qed.

Lemma get_random_invisible_char_spec g :
  ∃ c, get_random_invisible_char used_pools g = Ok (c, advance g)
       ∧ c ∈ level_chars used_pools.
Proof.
  unfold get_random_invisible_char.
  destruct (random_choice_elem_of (level_chars used_pools) g pools_nonempty)
    as (c & Hc & Hin).
  exists c. split; [|done].
  erewrite bind_Ok; [|apply collect_pools]. done.
Qed.
End drawing.

(* ===================================================================== *)
(** ** Injection of characters                                           *)
(* ===================================================================== *)

Section injection.
Variable P : N → Prop.

Lemma injected_refl l : injected P l l.
Proof. induction l; constructor; done. Qed.

Lemma injected_trans l k m : injected P l k → injected P k m → injected P l m.
Proof.
  intros Hlk Hkm. revert l Hlk.
  induction Hkm as [|x k m _ IH|c k m Hc _ IH]; intros l Hlk.
  - done.
  - inversion Hlk; subst.
    + apply injected_keep. by apply IH.
    + apply injected_put; [done|]. by apply IH.
  - apply injected_put; [done|]. by apply IH.
Qed.

Lemma injected_app l1 k1 l2 k2 :
  injected P l1 k1 → injected P l2 k2 → injected P (l1 ++ l2) (k1 ++ k2).
Proof. induction 1; intros; cbn; try constructor; auto. Qed.

Lemma injected_insert pos c l : P c → injected P l (list_insert_at pos c l).
Proof.
  intros Hc. unfold list_insert_at. rewrite <- (take_drop pos l) at 1.
  apply injected_app; [apply injected_refl|].
  apply injected_put; [done | apply injected_refl].
Qed.

Lemma injected_sublist l k : injected P l k → l `sublist_of` k.
Proof. induction 1; by constructor. Qed.

Lemma injected_length l k : injected P l k → (length l ≤ length k)%nat.
Proof. intros H. by apply sublist_length, injected_sublist. Qed.

Lemma injected_same_length l k :
  injected P l k → length k = length l → k = l.
Proof.
  induction 1 as [|x l k _ IH|c l k _ Hlk _]; cbn; intros Hlen.
  - done.
  - f_equal. apply IH. lia.
  - apply injected_length in Hlk. lia.
Qed.

Lemma injected_filter (Q : N → Prop) `{!∀ c, Decision (Q c)} l k :
  (∀ c, P c → ¬ Q c) → injected P l k → filter Q k = filter Q l.
Proof.
  intros HPQ. induction 1 as [|x l k _ IH|c l k Hc _ IH].
  - done.
  - rewrite !filter_cons, IH. done.
  - rewrite filter_cons_False; [done | by apply HPQ].
Qed.
End injection.

Lemma length_list_insert_at {A} pos (x : A) l :
  length (list_insert_at pos x l) = S (length l).
Proof.
  unfold list_insert_at. rewrite length_app. cbn [length].
  rewrite <- (take_drop pos l) at 3. rewrite length_app. lia.
Qed.

Lemma head_list_insert_at {A} pos (x : A) l :
  (1 ≤ pos < length l)%nat → head (list_insert_at pos x l) = head l.
Proof.
  intros Hpos. destruct l as [|y l]; cbn in Hpos; [lia|].
  destruct pos as [|pos]; [lia | done].
Qed.

Lemma last_list_insert_at {A} pos (x : A) l :
  (1 ≤ pos < length l)%nat → last (list_insert_at pos x l) = last l.
Proof.
  intros Hpos. unfold list_insert_at.
  rewrite <- (take_drop pos l) at 3.
  destruct (drop pos l) as [|y rest] eqn:Hdrop.
  - apply (f_equal length) in Hdrop. rewrite length_drop in Hdrop. cbn in Hdrop. lia.
  - by rewrite !last_app_cons, last_cons_cons.
Qed.

(* ===================================================================== *)
(** ** The marking loop                                                  *)
(* ===================================================================== *)

Lemma marks_of_snoc g prob k bs b :
  marks_of g prob k (bs ++ [b])
  = marks_of g prob k bs
    ++ (if Qltb (draw g (k + length bs)) prob then [b] else []).
Proof.
  revert k. induction bs as [|b' bs IH]; intros k; cbn [marks_of app length].
  - rewrite Nat.add_0_r. by destruct (Qltb _ _).
  - rewrite IH. replace (S k + length bs)%nat with (k + S (length bs))%nat by lia.
    by destruct (Qltb (draw g k) prob).
Qed.

Lemma marks_of_sublist g prob k bs : marks_of g prob k bs `sublist_of` bs.
Proof.
  revert k. induction bs as [|b bs IH]; intros k; cbn [marks_of].
  - constructor.
  - destruct (Qltb _ _); constructor; apply IH.
Qed.

Lemma counter_at_S text n :
  counter_at text (S n)
  = counter_at text n + (if valid_at text (S n) then 1 else 0).
Proof.
  unfold counter_at. rewrite seq_S, filter_app, length_app.
  cbn [Nat.add]. destruct (valid_at text (S n)) eqn:Hv.
  - rewrite filter_cons_True by (by apply Is_true_true). cbn. lia.
  - rewrite filter_cons_False by (by apply Is_true_false). cbn. lia.
Qed.

Lemma draw_gated_prefix_S text interval n :
  filter (λ i, draw_gated text interval i) (seq 1 (S n))
  = filter (λ i, draw_gated text interval i) (seq 1 n)
    ++ (if draw_gated text interval (S n) then [S n] else []).
Proof.
  rewrite seq_S, filter_app. cbn [Nat.add]. f_equal.
  destruct (draw_gated text interval (S n)) eqn:Hg.
  - rewrite filter_cons_True by (by apply Is_true_true). done.
  - rewrite filter_cons_False by (by apply Is_true_false). done.
Qed.

Lemma draw_gated_S text interval n :
  draw_gated text interval (S n)
  = valid_at text (S n)
    && bool_decide ((counter_at text n + 1) `mod` interval = 0).
Proof.
  unfold draw_gated. rewrite counter_at_S.
  by destruct (valid_at text (S n)).
Qed.

Section marking.
Variables (text : list N) (interval : Z) (prob : Q).
Hypothesis interval_nonzero : interval ≠ 0.

(** One iteration, at a boundary inside the text. *)
Lemma mark_step_spec char_count insert_positions i g :
  (1 ≤ i < length text)%nat →
  mark_step text interval prob (char_count, insert_positions) i g =
  if valid_at text i then
    if bool_decide ((char_count + 1) `mod` interval = 0) then
      Ok ((char_count + 1,
           insert_positions
           ++ (if Qltb (draw g (cursor g)) prob then [i] else [])),
          advance g)
    else Ok ((char_count + 1, insert_positions), g)
  else Ok ((char_count, insert_positions), g).
Proof.
  intros Hi. unfold mark_step, valid_at.
  destruct (lookup_lt_is_Some_2 text (i - 1)) as [prev_char Hprev]; [lia|].
  destruct (lookup_lt_is_Some_2 text i) as [next_char Hnext]; [lia|].
  rewrite Hprev, Hnext.
  erewrite bind_Ok; [| unfold list_getitem; rewrite Hprev; reflexivity].
  erewrite bind_Ok; [| unfold list_getitem; rewrite Hnext; reflexivity].
  destruct (is_valid_insert_pos prev_char next_char); [|done].
  rewrite bool_decide_eq_false_2 by done.
  destruct (bool_decide (_ `mod` _ = 0)); [|done].
  erewrite bind_Ok; [| reflexivity].
  fold (draw g (cursor g)).
  destruct (Qltb _ _); [done|]. by rewrite app_nil_r.
Qed.

(** The state after the first [n] iterations. *)
Lemma mark_prefix n g :
  (n ≤ length text - 1)%nat →
  foldM (mark_step text interval prob) (0, []) (seq 1 n) g =
  let gated := filter (λ i, draw_gated text interval i) (seq 1 n) in
  Ok ((counter_at text n, marks_of g prob (cursor g) gated),
      {| tape := tape g; cursor := cursor g + length gated |}).
Proof.
  induction n as [|n IH]; intros Hn.
  - destruct g as [t c]. cbn. by rewrite Nat.add_0_r.
  - cbn zeta. rewrite draw_gated_prefix_S, counter_at_S.
    rewrite seq_S, foldM_app, IH by lia. cbn zeta. cbn [Nat.add foldM].
    unfold mbind, Rand_bind. rewrite mark_step_spec by lia.
    change (draw {| tape := tape g; cursor := ?c |}) with (draw g).
    cbn [tape cursor].
    rewrite (draw_gated_S text interval n).
    destruct (valid_at text (S n)); cbn [andb].
    + destruct (bool_decide _).
      * rewrite marks_of_snoc, length_app. cbn [length].
        rewrite advance_advance_n.
        unfold mret, Rand_ret. do 3 f_equal. lia.
      * rewrite !app_nil_r. done.
    + rewrite Z.add_0_r, !app_nil_r. done.
Qed.

Lemma mark_positions_spec g :
  mark_positions text interval prob g =
  Ok ((counter_at text (length text - 1),
       marks_of g prob (cursor g) (draw_boundaries text interval)),
      {| tape := tape g;
         cursor := cursor g + length (draw_boundaries text interval) |}).
Proof. unfold mark_positions. by rewrite mark_prefix. Qed.

(** A draw is consumed at a boundary exactly when the gate is open. *)
Lemma draw_consumed_at_gated g i :
  (1 ≤ i < length text)%nat →
  draw_consumed_at text interval prob g i = draw_gated text interval i.
Proof.
  intros Hi. unfold draw_consumed_at.
  destruct i as [|j]; [lia|].
  replace (S j - 1)%nat with j by lia.
  rewrite mark_prefix by lia. cbn zeta. cbn match.
  rewrite mark_step_spec by done. cbn [tape cursor].
  rewrite draw_gated_S.
  destruct (valid_at text (S j)); cbn [andb].
  - destruct (bool_decide (_ `mod` _ = 0)).
    + apply bool_decide_eq_true. cbn. lia.
    + apply bool_decide_eq_false. cbn. lia.
  - apply bool_decide_eq_false. cbn. lia.
Qed.
End marking.

Lemma draw_boundaries_inside text interval i :
  i ∈ draw_boundaries text interval → (1 ≤ i < length text)%nat.
Proof.
  unfold draw_boundaries, boundaries.
  rewrite list_elem_of_filter, elem_of_seq. lia.
Qed.

Lemma marks_of_inside text interval g prob k :
  Forall (λ pos, (1 ≤ pos < length text)%nat)
         (marks_of g prob k (draw_boundaries text interval)).
Proof.
  apply Forall_forall. intros pos Hpos.
  apply (draw_boundaries_inside text interval).
  eapply elem_of_sublist; [done | apply marks_of_sublist].
Qed.

(* ===================================================================== *)
(** ** The insertion loop and the trailing marker                        *)
(* ===================================================================== *)

Section inserting.
Variable used_pools : list string.
Hypothesis pools_known :
  Forall (λ pool_name, is_Some (INVISIBLE_CHAR_POOLS !! pool_name)) used_pools.
Hypothesis pools_nonempty : level_chars used_pools ≠ [].

Lemma insert_loop_spec insert_positions : ∀ result g,
  Forall (λ pos, (1 ≤ pos < length result)%nat) insert_positions →
  ∃ body,
    foldM (λ result pos,
             c ← get_random_invisible_char used_pools;
             mret (list_insert_at pos c result)) result insert_positions g
    = Ok (body, {| tape := tape g;
                   cursor := cursor g + length insert_positions |})
    ∧ injected (.∈ level_chars used_pools) result body
    ∧ length body = (length result + length insert_positions)%nat
    ∧ head body = head result
    ∧ last body = last result.
Proof.
  induction insert_positions as [|pos rest IH]; intros result g Hpos.
  - exists result. destruct g as [t c]. cbn. rewrite !Nat.add_0_r.
    split; [done|]. split; [apply injected_refl | done].
  - apply Forall_cons in Hpos as [Hpos Hrest].
    destruct (get_random_invisible_char_spec used_pools pools_known
                pools_nonempty g) as (c & Hdraw & Hc).
    destruct (IH (list_insert_at pos c result) (advance g))
      as (body & Hrun & Hinj & Hlen & Hhead & Hlast).
    { eapply Forall_impl; [exact Hrest|]. cbn. intros p Hp.
      rewrite length_list_insert_at. lia. }
    exists body. split; [|split; [|split; [|split]]].
    + cbn [foldM]. erewrite bind_Ok; [|erewrite bind_Ok; [reflexivity | exact Hdraw]].
      rewrite Hrun. cbn. do 3 f_equal. lia.
    + eapply injected_trans; [|exact Hinj]. by apply injected_insert.
    + rewrite Hlen, length_list_insert_at. cbn. lia.
    + rewrite Hhead. by apply head_list_insert_at.
    + rewrite Hlast. by apply last_list_insert_at.
Qed.

Lemma end_mark_spec g :
  ∃ c1 c2,
    replicateM 2 (get_random_invisible_char used_pools) g
    = Ok ([c1; c2], {| tape := tape g; cursor := cursor g + 2 |})
    ∧ c1 ∈ level_chars used_pools ∧ c2 ∈ level_chars used_pools.
Proof.
  destruct (get_random_invisible_char_spec used_pools pools_known
              pools_nonempty g) as (c1 & Hdraw1 & Hc1).
  destruct (get_random_invisible_char_spec used_pools pools_known
              pools_nonempty (advance g)) as (c2 & Hdraw2 & Hc2).
  exists c1, c2. split; [|done]. cbn [replicateM].
  erewrite bind_Ok; [|exact Hdraw1].
  erewrite bind_Ok; [|erewrite bind_Ok; [reflexivity | exact Hdraw2]].
  unfold mret, Rand_ret, advance. cbn. do 3 f_equal. lia.
Qed.
End inserting.

(* ===================================================================== *)
(** ** The shape of the output                                           *)
(* ===================================================================== *)

(** On non-blank text and a usable configuration the call returns the
    text with level characters put in at marked boundaries, then a space
    and two level characters; it draws once per gated boundary, once per
    mark and twice for the marker. *)
Lemma insert_structure text cfg g :
  usable cfg → strip text ≠ [] →
  let chars := level_chars (Character_Pool cfg) in
  let gated := draw_boundaries text (Interval cfg) in
  let marks := marks_of g (Implantation_Probability cfg) (cursor g) gated in
  ∃ body c1 c2,
    insert_adaptive_invisible_traps text cfg g
    = Ok (body ++ [space; c1; c2],
          {| tape := tape g;
             cursor := cursor g + length gated + length marks + 2 |})
    ∧ injected (.∈ chars) text body
    ∧ length body = (length text + length marks)%nat
    ∧ head body = head text
    ∧ last body = last text
    ∧ c1 ∈ chars ∧ c2 ∈ chars.
Proof.
  intros (Hinterval & Hknown & Hnonempty) Hblank chars gated marks.
  unfold insert_adaptive_invisible_traps.
  rewrite bool_decide_eq_false_2 by done.
  erewrite bind_Ok; [|by apply mark_positions_spec]. fold gated marks.
  destruct (insert_loop_spec _ Hknown Hnonempty (reverse marks) text
              {| tape := tape g; cursor := cursor g + length gated |})
    as (body & Hbody & Hinj & Hlen & Hhead & Hlast).
  { apply Forall_reverse, marks_of_inside. }
  erewrite bind_Ok; [|exact Hbody]. cbn [tape cursor].
  destruct (end_mark_spec _ Hknown Hnonempty
              {| tape := tape g;
                 cursor := cursor g + length gated + length (reverse marks) |})
    as (c1 & c2 & Hmark & Hc1 & Hc2).
  erewrite bind_Ok; [|exact Hmark]. cbn [tape cursor].
  rewrite length_reverse in *.
  exists body, c1, c2. done.
Qed.

(* ===================================================================== *)
(** ** Blank text                                                        *)
(* ===================================================================== *)

Lemma lstrip_nil_iff s : lstrip s = [] ↔ Forall (λ c, isspace c) s.
Proof.
  induction s as [|c s IH]; cbn [lstrip].
  - by rewrite Forall_nil.
  - rewrite Forall_cons. destruct (isspace c) eqn:Hc.
    + rewrite IH. cbn. tauto.
    + cbn. split; [discriminate | tauto].
Qed.

Lemma lstrip_all_space s :
  Forall (λ c, isspace c) (lstrip s) ↔ Forall (λ c, isspace c) s.
Proof.
  induction s as [|c s IH]; cbn [lstrip]; [done|].
  destruct (isspace c) eqn:Hc; [|done].
  rewrite IH, Forall_cons, Hc. cbn. tauto.
Qed.

(** [text.strip()] is empty exactly when every character is whitespace. *)
Lemma strip_nil_iff s : strip s = [] ↔ Forall (λ c, isspace c) s.
Proof.
  unfold strip, rstrip. rewrite <- lstrip_all_space.
  rewrite <- (Forall_reverse _ (lstrip s)), <- lstrip_nil_iff.
  split; intros H.
  - apply (f_equal reverse) in H. by rewrite reverse_involutive in H.
  - by rewrite H.
Qed.

Lemma strip_nonblank_nonempty s : strip s ≠ [] → s ≠ [].
Proof. intros H ->. by apply H. Qed.

(* ===================================================================== *)
(** ** Counting boundaries                                               *)
(* ===================================================================== *)

Lemma filter_ext_elem {A} (P1 P2 : A → Prop)
    `{!∀ x, Decision (P1 x), !∀ x, Decision (P2 x)} (l : list A) :
  (∀ x, x ∈ l → P1 x ↔ P2 x) → filter P1 l = filter P2 l.
Proof.
  induction l as [|a l IH]; intros Hext; [done|].
  rewrite !filter_cons, IH by (intros; apply Hext; by right).
  destruct (decide (P1 a)) as [H1|H1], (decide (P2 a)) as [H2|H2];
    try done; exfalso; apply (Hext a) in H1 || apply (Hext a) in H2;
    try done; by left.
Qed.

Lemma filter_id {A} (P : A → Prop) `{!∀ x, Decision (P x)} (l : list A) :
  Forall P l → filter P l = l.
Proof.
  induction 1 as [|x l Hx _ IH]; [done|].
  by rewrite filter_cons_True, IH.
Qed.

(** The gated boundaries are eligible ones. *)
Lemma draw_boundaries_eligible text interval :
  draw_boundaries text interval
  = filter (λ i, draw_gated text interval i) (eligible_boundaries text).
Proof.
  unfold draw_boundaries, eligible_boundaries.
  rewrite list_filter_filter_l; [done|].
  intros i. unfold draw_gated. by destruct (valid_at text i).
Qed.

Lemma length_draw_boundaries_le text interval :
  (length (draw_boundaries text interval) ≤ length (eligible_boundaries text))%nat.
Proof. rewrite draw_boundaries_eligible. apply length_filter. Qed.

(** The run consumes a draw exactly at the gated boundaries. *)
Lemma draws_of_run_spec text cfg g :
  Interval cfg ≠ 0 →
  draws_of_run text cfg g
  = if bool_decide (strip text = []) then []
    else draw_boundaries text (Interval cfg).
Proof.
  intros Hinterval. unfold draws_of_run, draw_boundaries.
  destruct (bool_decide (strip text = [])); [done|].
  apply filter_ext_elem. intros i Hi.
  rewrite draw_consumed_at_gated; [done | done |].
  unfold boundaries in Hi. apply elem_of_seq in Hi. lia.
Qed.

Lemma div_succ (c k : Z) :
  0 ≤ c → 0 < k →
  (c + 1) / k = c / k + (if bool_decide ((c + 1) `mod` k = 0) then 1 else 0).
Proof.
  intros Hc Hk.
  pose proof (Z.div_mod c k) as Hdm. pose proof (Z.mod_pos_bound c k Hk) as Hb.
  destruct (decide (c `mod` k = k - 1)) as [Hlast|Hlast].
  - assert (c + 1 = k * (c / k + 1)) as Heq by lia.
    rewrite bool_decide_eq_true_2.
    + rewrite Heq at 1. rewrite Z.mul_comm, Z.div_mul by lia. done.
    + rewrite Heq, Z.mul_comm. apply Z.mod_mul. lia.
  - assert ((c + 1) `mod` k = c `mod` k + 1) as Hmod.
    { symmetry. apply (Z.mod_unique_pos _ _ (c / k)); lia. }
    rewrite bool_decide_eq_false_2 by lia.
    rewrite Z.add_0_r. symmetry. apply (Z.div_unique_pos _ _ _ (c `mod` k + 1)); lia.
Qed.

Lemma counter_at_nonneg text n : 0 ≤ counter_at text n.
Proof. unfold counter_at. lia. Qed.

(** With a positive interval, one boundary in [interval] eligible ones is
    gated. *)
Lemma length_gated_prefix text interval n :
  0 < interval →
  Z.of_nat (length (filter (λ i, draw_gated text interval i) (seq 1 n)))
  = counter_at text n / interval.
Proof.
  intros Hpos. induction n as [|n IH].
  - cbn. by rewrite Z.div_0_l by lia.
  - rewrite draw_gated_prefix_S, length_app, Nat2Z.inj_add, IH.
    rewrite draw_gated_S, counter_at_S.
    destruct (valid_at text (S n)); cbn [andb].
    + rewrite div_succ by (done || apply counter_at_nonneg).
      by destruct (bool_decide _).
    + cbn. by rewrite !Z.add_0_r.
Qed.

Lemma length_draw_boundaries text interval :
  0 < interval →
  Z.of_nat (length (draw_boundaries text interval))
  = Z.of_nat (length (eligible_boundaries text)) / interval.
Proof.
  intros Hpos. unfold draw_boundaries, eligible_boundaries, boundaries.
  by rewrite length_gated_prefix.
Qed.

(** When no boundary is gated, the body of the output is the text. *)
Lemma insert_without_gated text cfg g :
  usable cfg → strip text ≠ [] → draw_boundaries text (Interval cfg) = [] →
  ∃ c1 c2,
    insert_adaptive_invisible_traps text cfg g
    = Ok (text ++ [space; c1; c2], {| tape := tape g; cursor := cursor g + 2 |})
    ∧ c1 ∈ level_chars (Character_Pool cfg)
    ∧ c2 ∈ level_chars (Character_Pool cfg).
Proof.
  intros Husable Hblank Hgated.
  destruct (insert_structure text cfg g Husable Hblank)
    as (body & c1 & c2 & Hrun & Hinj & Hlen & _ & _ & Hc1 & Hc2).
  rewrite Hgated in Hrun, Hlen. cbn [marks_of length] in Hrun, Hlen.
  apply injected_same_length in Hinj as ->; [|lia].
  exists c1, c2. rewrite Hrun. split; [|done]. do 3 f_equal. lia.
Qed.

(* ===================================================================== *)
(** ** Properties of the engine                                          *)
(* ===================================================================== *)

(** [C4] Blank-input special case.  A text is blank (empty once stripped)
    exactly when all its characters are whitespace, which includes the
    empty text.  On blank text [insert_adaptive_invisible_traps] returns
    the empty string, without drawing and without a trailing marker, for
    every registered level; on every other text the output ends with the
    marker: a space and two characters of the level. *)
Theorem blank_input_special_case text cfg g :
  registered cfg →
  (strip text = [] ↔ Forall (λ c, isspace c) text)
  ∧ (strip text = [] →
     insert_adaptive_invisible_traps text cfg g = Ok ([], g))
  ∧ (strip text ≠ [] →
     ∃ body c1 c2 g',
       insert_adaptive_invisible_traps text cfg g
       = Ok (body ++ [space; c1; c2], g')
       ∧ c1 ∈ level_chars (Character_Pool cfg)
       ∧ c2 ∈ level_chars (Character_Pool cfg)).
Proof.
  intros Hreg. split; [apply strip_nil_iff|]. split.
  - intros Hblank. unfold insert_adaptive_invisible_traps.
    by rewrite bool_decide_eq_true_2.
  - intros Hblank.
    destruct (insert_structure text cfg g (registered_usable cfg Hreg) Hblank)
      as (body & c1 & c2 & Hrun & _ & _ & _ & _ & Hc1 & Hc2).
    eexists body, c1, c2, _. split; [exact Hrun | done].
Qed.

Lemma blank_input_special_case_witness :
  registered Severe
  ∧ insert_adaptive_invisible_traps (str "   ") Severe tape0 = Ok ([], tape0).
Proof.
  assert (registered Severe) as Hreg by (by exists "Severe interference").
  split; [exact Hreg|].
  apply (blank_input_special_case (str "   ") Severe tape0 Hreg).
  reflexivity.
Defined.

(** [C5] Length growth bound.  On non-blank text, for every registered
    level and every random source, the output is at least three
    characters longer than the text (the space and the two marker
    characters) and at most three plus the number of eligible boundaries
    longer. *)
Theorem length_growth_bound text cfg g :
  registered cfg → strip text ≠ [] →
  ∃ out g',
    insert_adaptive_invisible_traps text cfg g = Ok (out, g')
    ∧ (length text + 3 ≤ length out)%nat
    ∧ (length out ≤ length text + length (eligible_boundaries text) + 3)%nat.
Proof.
  intros Hreg Hblank.
  destruct (insert_structure text cfg g (registered_usable cfg Hreg) Hblank)
    as (body & c1 & c2 & Hrun & _ & Hlen & _).
  eexists _, _. split; [exact Hrun|].
  rewrite length_app, Hlen. cbn [length].
  pose proof (sublist_length _ _
    (marks_of_sublist g (Implantation_Probability cfg) (cursor g)
       (draw_boundaries text (Interval cfg)))) as Hmarks.
  pose proof (length_draw_boundaries_le text (Interval cfg)). lia.
Qed.

Lemma length_growth_bound_witness :
  registered Severe ∧ strip (str "Hello world") ≠ []
  ∧ ∃ out g',
      insert_adaptive_invisible_traps (str "Hello world") Severe tape0
      = Ok (out, g')
      ∧ (length (str "Hello world") + 3 ≤ length out)%nat
      ∧ (length out ≤ length (str "Hello world")
                      + length (eligible_boundaries (str "Hello world")) + 3)%nat.
Proof.
  assert (registered Severe) as Hreg by (by exists "Severe interference").
  assert (strip (str "Hello world") ≠ []) as Hblank by (vm_compute; discriminate).
  split; [exact Hreg|]. split; [exact Hblank|].
  exact (length_growth_bound (str "Hello world") Severe tape0 Hreg Hblank).
Defined.

(** [C10] Subsequence preservation.  On non-blank text, for every
    registered level and every random source, the output is the text with
    characters of the level's pools put in, followed by a space and two
    characters of the level's pools: nothing of the text is removed,
    replaced or reordered, so the text is a subsequence of the output; the
    insertions are at internal positions, so the body begins with the
    first character of the text (and so does the output) and ends with its
    last. *)
Theorem input_is_subsequence text cfg g :
  registered cfg → strip text ≠ [] →
  ∃ body c1 c2 g',
    insert_adaptive_invisible_traps text cfg g
    = Ok (body ++ [space; c1; c2], g')
    ∧ injected (.∈ level_chars (Character_Pool cfg)) text body
    ∧ c1 ∈ level_chars (Character_Pool cfg)
    ∧ c2 ∈ level_chars (Character_Pool cfg)
    ∧ text `sublist_of` body ++ [space; c1; c2]
    ∧ is_Some (head text)
    ∧ head (body ++ [space; c1; c2]) = head text
    ∧ last body = last text.
Proof.
  intros Hreg Hblank.
  destruct (insert_structure text cfg g (registered_usable cfg Hreg) Hblank)
    as (body & c1 & c2 & Hrun & Hinj & _ & Hhead & Hlast & Hc1 & Hc2).
  eexists body, c1, c2, _. split; [exact Hrun|].
  assert (is_Some (head text)) as [x Hx].
  { apply head_is_Some. by apply strip_nonblank_nonempty. }
  repeat split; try done.
  - apply sublist_inserts_r. by eapply injected_sublist.
  - rewrite <- Hhead. rewrite Hx in Hhead.
    by destruct body.
Qed.

Lemma input_is_subsequence_witness :
  registered Moderate ∧ strip (str "Hello world") ≠ []
  ∧ ∃ body c1 c2 g',
      insert_adaptive_invisible_traps (str "Hello world") Moderate tapeid
      = Ok (body ++ [space; c1; c2], g')
      ∧ injected (.∈ level_chars (Character_Pool Moderate)) (str "Hello world") body
      ∧ c1 ∈ level_chars (Character_Pool Moderate)
      ∧ c2 ∈ level_chars (Character_Pool Moderate)
      ∧ str "Hello world" `sublist_of` body ++ [space; c1; c2]
      ∧ is_Some (head (str "Hello world"))
      ∧ head (body ++ [space; c1; c2]) = head (str "Hello world")
      ∧ last body = last (str "Hello world").
Proof.
  assert (registered Moderate) as Hreg by (by exists "Moderate Interference").
  assert (strip (str "Hello world") ≠ []) as Hblank by (vm_compute; discriminate).
  split; [exact Hreg|]. split; [exact Hblank|].
  exact (input_is_subsequence (str "Hello world") Moderate tapeid Hreg Hblank).
Defined.

(** [C7] Scenario 3.  In the text a,b both internal boundaries touch the
    comma, which is in [INVALID_POS_CHARS], so neither is valid and there
    is no eligible boundary; under the Mild level (interval 5, probability
    0.2), for every random source, the output is a,b followed by a space
    and two characters of the Basic Pool: six characters. *)
Theorem scenario_a_comma_b g :
  Interval Mild = 5 ∧ Implantation_Probability Mild = double_0_2
  ∧ ord ","%char ∈ INVALID_POS_CHARS
  ∧ valid_at (str "a,b") 1 = false
  ∧ valid_at (str "a,b") 2 = false
  ∧ eligible_boundaries (str "a,b") = []
  ∧ ∃ c1 c2,
      insert_adaptive_invisible_traps (str "a,b") Mild g
      = Ok (str "a,b" ++ [space; c1; c2],
            {| tape := tape g; cursor := cursor g + 2 |})
      ∧ c1 ∈ [0x200B; 0x200C; 0x200D]%N
      ∧ c2 ∈ [0x200B; 0x200C; 0x200D]%N
      ∧ length (str "a,b" ++ [space; c1; c2]) = 6%nat.
Proof.
  do 2 (split; [reflexivity|]).
  split; [by apply (bool_decide_eq_true_1 _); vm_compute|].
  do 3 (split; [by vm_compute|]).
  destruct (insert_without_gated (str "a,b") Mild g)
    as (c1 & c2 & Hrun & Hc1 & Hc2).
  - apply registered_usable, registered_Mild.
  - by vm_compute.
  - by vm_compute.
  - by exists c1, c2.
Qed.

(** The text Hi has no gated boundary under a registered level. *)
Lemma Hi_not_gated cfg :
  registered cfg → draw_boundaries (str "Hi") (Interval cfg) = [].
Proof.
  intros Hreg.
  by destruct (registered_cases cfg Hreg) as [-> | [-> | ->]]; vm_compute.
Qed.

Lemma Hi_nonblank : strip (str "Hi") ≠ [].
Proof. by vm_compute. Qed.

(** [C3] Scenario 1, as the code behaves.  The text Hi has one internal
    boundary, [i = 1], and it is valid.  The counter is incremented before
    the modulus test, so it is 1 at that boundary, and 1 is not a multiple
    of the interval of any registered level (5, 3, 2): no draw is made and
    nothing is inserted.  For every registered level and every random
    source the output is Hi, a space and two characters of the level's
    pools: exactly five characters. *)
Theorem scenario_Hi cfg g :
  registered cfg →
  boundaries (str "Hi") = [1%nat]
  ∧ valid_at (str "Hi") 1 = true
  ∧ counter_at (str "Hi") 1 = 1
  ∧ 1 `mod` Interval cfg ≠ 0
  ∧ draws_of_run (str "Hi") cfg g = []
  ∧ ∃ c1 c2,
      insert_adaptive_invisible_traps (str "Hi") cfg g
      = Ok (str "Hi" ++ [space; c1; c2],
            {| tape := tape g; cursor := cursor g + 2 |})
      ∧ c1 ∈ level_chars (Character_Pool cfg)
      ∧ c2 ∈ level_chars (Character_Pool cfg)
      ∧ length (str "Hi" ++ [space; c1; c2]) = 5%nat.
Proof.
  intros Hreg. pose proof (registered_usable cfg Hreg) as Husable.
  do 3 (split; [by vm_compute|]).
  split; [by destruct (registered_cases cfg Hreg) as [-> | [-> | ->]]|].
  split.
  - rewrite draws_of_run_spec by apply Husable.
    rewrite bool_decide_eq_false_2 by apply Hi_nonblank.
    by apply Hi_not_gated.
  - destruct (insert_without_gated (str "Hi") cfg g Husable Hi_nonblank
                (Hi_not_gated cfg Hreg)) as (c1 & c2 & Hrun & Hc1 & Hc2).
    by exists c1, c2.
Qed.

Lemma scenario_Hi_witness :
  registered Severe
  ∧ ∃ c1 c2,
      insert_adaptive_invisible_traps (str "Hi") Severe tapeid
      = Ok (str "Hi" ++ [space; c1; c2],
            {| tape := tape tapeid; cursor := cursor tapeid + 2 |})
      ∧ c1 ∈ level_chars (Character_Pool Severe)
      ∧ c2 ∈ level_chars (Character_Pool Severe)
      ∧ length (str "Hi" ++ [space; c1; c2]) = 5%nat.
Proof.
  assert (registered Severe) as Hreg by (by exists "Severe interference").
  split; [exact Hreg|].
  apply (scenario_Hi Severe tapeid Hreg).
Defined.

(** Against [C3] as stated: under no registered level and for no random
    source is a character put between H and i, so the output never has
    six characters. *)
Lemma scenario_Hi_never_six :
  ¬ ∃ cfg g out g',
      registered cfg
      ∧ insert_adaptive_invisible_traps (str "Hi") cfg g = Ok (out, g')
      ∧ length out = 6%nat.
Proof.
  intros (cfg & g & out & g' & Hreg & Hrun & Hlen).
  destruct (insert_without_gated (str "Hi") cfg g (registered_usable cfg Hreg)
              Hi_nonblank (Hi_not_gated cfg Hreg)) as (c1 & c2 & Hrun' & _).
  rewrite Hrun' in Hrun. injection Hrun as <- _. discriminate Hlen.
Qed.

(** [C2] The validity predicate at the characters where line 24 departs
    from its intent.  The literal is a raw string, so its last six
    characters are backslash, t, backslash, n, backslash, r: the letters
    t, n and r disqualify a boundary, and tab, newline and carriage return
    do not.  The character before them is stored as U+00E3 U+20AC U+20AC,
    so the ideographic space U+3000 does not disqualify either. *)
Theorem is_valid_insert_pos_raw_escapes :
  is_valid_insert_pos (ord "t"%char) (ord "a"%char) = false
  ∧ is_valid_insert_pos (ord "a"%char) (ord "n"%char) = false
  ∧ is_valid_insert_pos (ord "r"%char) (ord "e"%char) = false
  ∧ is_valid_insert_pos 0x09%N (ord "a"%char) = true
  ∧ is_valid_insert_pos (ord "a"%char) 0x0A%N = true
  ∧ is_valid_insert_pos 0x0D%N (ord "a"%char) = true
  ∧ is_valid_insert_pos 0x3000%N (ord "a"%char) = true.
Proof. by vm_compute. Qed.

(** The predicate is false exactly when one side is in the table. *)
Lemma is_valid_insert_pos_false_iff prev_char next_char :
  is_valid_insert_pos prev_char next_char = false
  ↔ prev_char ∈ INVALID_POS_CHARS ∨ next_char ∈ INVALID_POS_CHARS.
Proof.
  unfold is_valid_insert_pos.
  destruct (bool_decide_reflect (prev_char ∈ INVALID_POS_CHARS)),
           (bool_decide_reflect (next_char ∈ INVALID_POS_CHARS));
    cbn; split; (done || tauto || auto).
Qed.

Lemma remove_invisible_marker c1 c2 :
  is_pool_char c1 = true → is_pool_char c2 = true →
  remove_invisible [space; c1; c2] = [space].
Proof.
  intros H1 H2. unfold remove_invisible.
  rewrite filter_cons_True by (by vm_compute).
  rewrite filter_cons_False by (rewrite H1; by intros []).
  rewrite filter_cons_False by (rewrite H2; by intros []).
  done.
Qed.

Lemma remove_trailing_space_snoc s : remove_trailing_space (s ++ [space]) = s.
Proof.
  unfold remove_trailing_space. rewrite reverse_snoc.
  by rewrite bool_decide_eq_true_2, reverse_involutive.
Qed.

Lemma remove_trailing_marker_app body c0 c1 c2 :
  remove_trailing_marker (body ++ [c0; c1; c2]) = body.
Proof.
  unfold remove_trailing_marker. apply take_app_length'.
  rewrite length_app. cbn. lia.
Qed.

(** What the removal of pool characters leaves of an output, whatever the
    text contains. *)
Lemma remove_invisible_output text cfg g :
  usable cfg → strip text ≠ [] →
  ∃ body c1 c2 g',
    insert_adaptive_invisible_traps text cfg g = Ok (body ++ [space; c1; c2], g')
    ∧ remove_invisible body = remove_invisible text
    ∧ remove_invisible (body ++ [space; c1; c2]) = remove_invisible text ++ [space].
Proof.
  intros Husable Hblank.
  destruct (insert_structure text cfg g Husable Hblank)
    as (body & c1 & c2 & Hrun & Hinj & _ & _ & _ & Hc1 & Hc2).
  assert (remove_invisible body = remove_invisible text) as Hbody.
  { unfold remove_invisible. eapply injected_filter; [|exact Hinj].
    cbn. intros c Hc%level_chars_pool Hnot. apply Hnot. by rewrite Hc. }
  eexists body, c1, c2, _. split; [exact Hrun|]. split; [exact Hbody|].
  unfold remove_invisible in *. rewrite filter_app, Hbody. f_equal.
  apply remove_invisible_marker; eapply level_chars_pool; eassumption.
Qed.

(** [C1] Content preservation, as the code supports it.  For every text
    that contains no registered pool character and is empty or non-blank,
    every registered level and every random source: removing the pool
    characters from the output and then the space left of the trailing
    marker gives back the text; so does removing the three marker
    characters first and the pool characters after. *)
Theorem content_preservation text cfg g :
  registered cfg →
  Forall (λ c, is_pool_char c = false) text →
  text = [] ∨ strip text ≠ [] →
  ∃ out g',
    insert_adaptive_invisible_traps text cfg g = Ok (out, g')
    ∧ remove_trailing_space (remove_invisible out) = text
    ∧ remove_invisible (remove_trailing_marker out) = text.
Proof.
  intros Hreg Hclean [-> | Hblank].
  - by exists [], g.
  - destruct (remove_invisible_output text cfg g (registered_usable cfg Hreg)
                Hblank) as (body & c1 & c2 & g' & Hrun & Hbody & Hout).
    assert (remove_invisible text = text) as Htext.
    { apply filter_id. eapply Forall_impl; [exact Hclean|].
      cbn. intros c Hc. rewrite Hc. intros []. }
    exists (body ++ [space; c1; c2]), g'. split; [exact Hrun|]. split.
    + by rewrite Hout, Htext, remove_trailing_space_snoc.
    + by rewrite remove_trailing_marker_app, Hbody.
Qed.

Lemma content_preservation_witness :
  registered Severe
  ∧ Forall (λ c, is_pool_char c = false) (str "Hello world")
  ∧ (str "Hello world" = [] ∨ strip (str "Hello world") ≠ [])
  ∧ ∃ out g',
      insert_adaptive_invisible_traps (str "Hello world") Severe tapeid
      = Ok (out, g')
      ∧ remove_trailing_space (remove_invisible out) = str "Hello world"
      ∧ remove_invisible (remove_trailing_marker out) = str "Hello world".
Proof.
  assert (registered Severe) as Hreg by (by exists "Severe interference").
  assert (Forall (λ c, is_pool_char c = false) (str "Hello world")) as Hclean
    by (apply (bool_decide_eq_true_1 _); vm_compute; reflexivity).
  assert (str "Hello world" = [] ∨ strip (str "Hello world") ≠ []) as Hblank
    by (right; vm_compute; discriminate).
  split; [exact Hreg|]. split; [exact Hclean|]. split; [exact Hblank|].
  exact (content_preservation (str "Hello world") Severe tapeid Hreg Hclean Hblank).
Defined.

(** Against [C1] as stated: a blank text of one space comes back as the
    empty string, and a no-break space U+00A0 inside the text is removed
    together with the inserted characters. *)
Lemma content_preservation_fails :
  (remove_trailing_space ∘ remove_invisible
     <$> output (insert_adaptive_invisible_traps [space] Mild tape0))
  ≠ Some [space]
  ∧ (remove_invisible ∘ remove_trailing_marker
     <$> output (insert_adaptive_invisible_traps [space] Mild tape0))
  ≠ Some [space]
  ∧ (remove_trailing_space ∘ remove_invisible
     <$> output (insert_adaptive_invisible_traps
                   [ord "a"%char; 0xA0%N; ord "b"%char] Mild tape0))
  ≠ Some [ord "a"%char; 0xA0%N; ord "b"%char]
  ∧ (remove_invisible ∘ remove_trailing_marker
     <$> output (insert_adaptive_invisible_traps
                   [ord "a"%char; 0xA0%N; ord "b"%char] Mild tape0))
  ≠ Some [ord "a"%char; 0xA0%N; ord "b"%char].
Proof. repeat split; vm_compute; discriminate. Qed.

(** The marking loop of a call, cut at the iteration of boundary [i]:
    the state the loop has reached before it, the iteration itself, and
    the rest of the loop.  The iteration moves the cursor by one when the
    boundary is gated and leaves it alone otherwise. *)
Lemma mark_positions_split text interval prob g i :
  interval ≠ 0 → (1 ≤ i < length text)%nat →
  ∃ st1 g1 st2 g2,
    foldM (mark_step text interval prob) (0, []) (seq 1 (i - 1)) g = Ok (st1, g1)
    ∧ mark_step text interval prob st1 i g1 = Ok (st2, g2)
    ∧ mark_positions text interval prob g
      = foldM (mark_step text interval prob) st2
          (seq (S i) (length text - 1 - i)) g2
    ∧ fst st2 = counter_at text i
    ∧ tape g1 = tape g ∧ tape g2 = tape g
    ∧ cursor g2
      = (cursor g1 + if draw_gated text interval i then 1 else 0)%nat.
Proof.
  intros Hinterval Hi. destruct i as [|j]; [lia|].
  replace (S j - 1)%nat with j by lia.
  pose proof (mark_prefix text interval prob Hinterval j g) as Hprefix.
  cbn zeta in Hprefix. specialize (Hprefix ltac:(lia)).
  set (st1 := (counter_at text j,
               marks_of g prob (cursor g)
                 (filter (λ i, draw_gated text interval i) (seq 1 j)))) in *.
  set (g1 := {| tape := tape g;
                cursor := cursor g
                          + length (filter (λ i, draw_gated text interval i)
                                      (seq 1 j)) |}) in *.
  pose proof (mark_step_spec text interval prob Hinterval (fst st1) (snd st1)
                (S j) g1 ltac:(lia)) as Hstep.
  change (fst st1, snd st1) with st1 in Hstep.
  assert (∃ st2 g2,
            mark_step text interval prob st1 (S j) g1 = Ok (st2, g2)
            ∧ fst st2 = counter_at text (S j)
            ∧ tape g2 = tape g
            ∧ cursor g2
              = (cursor g1 + if draw_gated text interval (S j) then 1 else 0)%nat)
    as (st2 & g2 & Hstep2 & Hcount & Htape & Hcursor).
  { rewrite draw_gated_S, counter_at_S. rewrite Hstep. subst st1 g1.
    cbn [fst snd].
    destruct (valid_at text (S j)); cbn [andb].
    - destruct (bool_decide _); eexists _, _; (split; [reflexivity|]);
        cbn [fst tape cursor advance]; (split; [done|]); split; (done || lia).
    - eexists _, _. split; [reflexivity|]. cbn [fst tape cursor].
      split; [lia|]. split; [done | lia]. }
  exists st1, g1, st2, g2.
  do 2 (split; [done|]). split; [|done].
  assert (seq 1 (length text - 1)
          = seq 1 j ++ S j :: seq (S (S j)) (length text - 1 - S j)) as Hseq.
  { set (rest := (length text - 1 - S j)%nat).
    replace (length text - 1)%nat with (j + S rest)%nat by lia.
    by rewrite seq_app. }
  unfold mark_positions. rewrite Hseq, foldM_app, Hprefix. cbn [foldM].
  unfold mbind at 1, Rand_bind at 1. by rewrite Hstep2.
Qed.

(** [C6] Draw gating.  In the marking loop of a call with a non-zero
    interval, the iteration at boundary [i] consumes a draw of the random
    source exactly when the boundary is valid and the eligible-boundary
    counter, once the boundary is counted, is a multiple of the interval:
    the loop [mark_positions] runs through a state before [i], the
    iteration at [i] and the rest, and the iteration moves the cursor by
    one in that case and not at all otherwise.  The whole loop consumes
    one draw for each such boundary.  Hence the boundaries at which a call
    consumes a probability draw are the same for any two random sources,
    and so is the number of draws the loop of the call makes. *)
Theorem draw_gating_determinism text cfg :
  Interval cfg ≠ 0 →
  (∀ g i, (1 ≤ i < length text)%nat →
     draw_consumed_at text (Interval cfg) (Implantation_Probability cfg) g i = true
     ↔ valid_at text i = true ∧ counter_at text i `mod` Interval cfg = 0)
  ∧ (∀ g1 g2, draws_of_run text cfg g1 = draws_of_run text cfg g2)
  ∧ (∀ g i, (1 ≤ i < length text)%nat →
       ∃ st1 g1 st2 g2,
         foldM (mark_step text (Interval cfg) (Implantation_Probability cfg))
           (0, []) (seq 1 (i - 1)) g = Ok (st1, g1)
         ∧ mark_step text (Interval cfg) (Implantation_Probability cfg) st1 i g1
           = Ok (st2, g2)
         ∧ mark_positions text (Interval cfg) (Implantation_Probability cfg) g
           = foldM (mark_step text (Interval cfg) (Implantation_Probability cfg))
               st2 (seq (S i) (length text - 1 - i)) g2
         ∧ fst st2 = counter_at text i
         ∧ tape g2 = tape g1
         ∧ (cursor g2 = S (cursor g1)
            ↔ valid_at text i = true
              ∧ counter_at text i `mod` Interval cfg = 0)
         ∧ (cursor g2 = cursor g1
            ↔ ¬ (valid_at text i = true
                 ∧ counter_at text i `mod` Interval cfg = 0))
         ∧ (draw_consumed_at text (Interval cfg) (Implantation_Probability cfg)
              g i = true
            ↔ cursor g2 = S (cursor g1)))
  ∧ (∀ g, ∃ st g',
       mark_positions text (Interval cfg) (Implantation_Probability cfg) g
       = Ok (st, g')
       ∧ tape g' = tape g
       ∧ (strip text ≠ [] →
          cursor g' = (cursor g + length (draws_of_run text cfg g))%nat))
  ∧ (∀ g1 g2 st1 g1' st2 g2',
       mark_positions text (Interval cfg) (Implantation_Probability cfg) g1
       = Ok (st1, g1') →
       mark_positions text (Interval cfg) (Implantation_Probability cfg) g2
       = Ok (st2, g2') →
       (cursor g1' - cursor g1 = cursor g2' - cursor g2)%nat
       ∧ fst st1 = fst st2)
  ∧ (∀ g, usable cfg → strip text ≠ [] →
       ∃ out g',
         insert_adaptive_invisible_traps text cfg g = Ok (out, g')
         ∧ cursor g'
           = (cursor g + length (draws_of_run text cfg g)
              + (length out - (length text + 3)) + 2)%nat).
Proof.
  intros Hinterval.
  assert (∀ i, draw_gated text (Interval cfg) i = true
               ↔ valid_at text i = true
                 ∧ counter_at text i `mod` Interval cfg = 0) as Hgated.
  { intros i. unfold draw_gated.
    by rewrite andb_true_iff, bool_decide_eq_true. }
  split; [|split; [|split; [|split; [|split]]]].
  - intros g i Hi. rewrite draw_consumed_at_gated by done. apply Hgated.
  - intros g1 g2. by rewrite !draws_of_run_spec.
  - intros g i Hi.
    destruct (mark_positions_split text (Interval cfg)
                (Implantation_Probability cfg) g i Hinterval Hi)
      as (st1 & g1 & st2 & g2 & Hprefix & Hstep & Hrest & Hcount
          & Htape1 & Htape2 & Hcursor).
    exists st1, g1, st2, g2. do 4 (split; [done|]).
    split; [congruence|].
    rewrite draw_consumed_at_gated by done. rewrite <- !Hgated.
    destruct (draw_gated text (Interval cfg) i);
      (split; [|split]); split; intros; (done || lia).
  - intros g. rewrite mark_positions_spec by done. eexists _, _.
    split; [reflexivity|]. split; [done|]. intros Hblank. cbn [cursor].
    rewrite draws_of_run_spec by done. by rewrite bool_decide_eq_false_2.
  - intros g1 g2 st1 g1' st2 g2'.
    rewrite !mark_positions_spec by done.
    intros [= <- <-] [= <- <-]. cbn [cursor fst]. split; [lia | done].
  - intros g Husable Hblank.
    destruct (insert_structure text cfg g Husable Hblank)
      as (body & c1 & c2 & Hrun & _ & Hlen & _).
    eexists _, _. split; [exact Hrun|]. cbn [cursor].
    rewrite draws_of_run_spec by done. rewrite bool_decide_eq_false_2 by done.
    rewrite length_app, Hlen. cbn [length]. lia.
Qed.

Lemma draw_gating_determinism_witness :
  Interval Severe ≠ 0
  ∧ draw_consumed_at (str "Hello world") (Interval Severe)
      (Implantation_Probability Severe) tapeid 2 = true
  ∧ draws_of_run (str "Hello world") Severe tape0
    = draws_of_run (str "Hello world") Severe tapeid
  ∧ ∃ out g',
      insert_adaptive_invisible_traps (str "Hello world") Severe tapeid
      = Ok (out, g')
      ∧ cursor g'
        = (cursor tapeid + length (draws_of_run (str "Hello world") Severe tapeid)
           + (length out - (length (str "Hello world") + 3)) + 2)%nat.
Proof.
  assert (Interval Severe ≠ 0) as Hinterval by (vm_compute; discriminate).
  destruct (draw_gating_determinism (str "Hello world") Severe Hinterval)
    as (Hgate & Hsame & _ & _ & _ & Hcall).
  split; [exact Hinterval|]. split; [|split; [apply Hsame|]].
  - apply Hgate; [vm_compute; lia|]. split; reflexivity.
  - apply Hcall.
    + apply registered_usable. by exists "Severe interference".
    + vm_compute. discriminate.
Defined.

Lemma INTERFERENCE_LEVELS_keys name :
  is_Some (INTERFERENCE_LEVELS !! name)
  ↔ name ∈ ["Mild Interference"; "Moderate Interference"; "Severe interference"].
Proof.
  rewrite !elem_of_cons, elem_of_nil. split.
  - intros [cfg Hcfg]. unfold INTERFERENCE_LEVELS in Hcfg.
    rewrite !lookup_insert_Some, lookup_empty in Hcfg.
    destruct Hcfg as [[<- _] | [_ [[<- _] | [_ [[<- _] | [_ ?]]]]]]; auto.
    discriminate.
  - intros [-> | [-> | [-> | []]]]; eexists; reflexivity.
Qed.

(** [C8] Unknown level names fail.  The names of the registry are the
    three of the table.  For any other name the lookup
    [INTERFERENCE_LEVELS[selected_level]] raises [KeyError], and so does
    [process_input] on non-blank input: there is no default level.  For a
    registered name the lookup returns its level. *)
Theorem unknown_level_fails name g :
  (is_Some (INTERFERENCE_LEVELS !! name)
   ↔ name ∈ ["Mild Interference"; "Moderate Interference"; "Severe interference"])
  ∧ (¬ is_Some (INTERFERENCE_LEVELS !! name) →
     dict_getitem INTERFERENCE_LEVELS name g = Raise KeyError
     ∧ ∀ input_text, strip input_text ≠ [] →
         process_input input_text name g = Raise KeyError)
  ∧ (is_Some (INTERFERENCE_LEVELS !! name) →
     ∃ cfg, dict_getitem INTERFERENCE_LEVELS name g = Ok (cfg, g)
            ∧ registered cfg).
Proof.
  split; [apply INTERFERENCE_LEVELS_keys|]. split.
  - intros Hunknown.
    assert (dict_getitem INTERFERENCE_LEVELS name g = Raise KeyError) as Hget.
    { unfold dict_getitem.
      destruct (INTERFERENCE_LEVELS !! name) eqn:Hlookup; [|done].
      destruct Hunknown. by eexists. }
    split; [exact Hget|]. intros input_text Hblank. unfold process_input.
    rewrite bool_decide_eq_false_2 by done. by apply bind_Raise.
  - intros [cfg Hcfg]. exists cfg. split; [|by exists name].
    unfold dict_getitem. by rewrite Hcfg.
Qed.

Lemma unknown_level_fails_witness :
  ¬ is_Some (INTERFERENCE_LEVELS !! "Severe Interference")
  ∧ dict_getitem INTERFERENCE_LEVELS "Severe Interference" tape0 = Raise KeyError
  ∧ process_input (str " ab ") "Severe Interference" tape0 = Raise KeyError
  ∧ ∃ cfg, dict_getitem INTERFERENCE_LEVELS "Severe interference" tape0
           = Ok (cfg, tape0) ∧ registered cfg.
Proof.
  assert (¬ is_Some (INTERFERENCE_LEVELS !! "Severe Interference")) as Hunknown
    by (vm_compute; intros [cfg Hcfg]; discriminate Hcfg).
  destruct (unknown_level_fails "Severe Interference" tape0)
    as (_ & Hfail & _).
  destruct (Hfail Hunknown) as [Hget Hprocess].
  split; [exact Hunknown|]. split; [exact Hget|]. split.
  - apply Hprocess. vm_compute. discriminate.
  - apply (unknown_level_fails "Severe interference" tape0).
    vm_compute. eexists. reflexivity.
Defined.

(** [favourable] counts the outcomes of a 53-bit draw that pass the test
    [random.random() < prob]. *)
Lemma favourable_spec prob k :
  0 ≤ k < 2 ^ 53 →
  Qltb (k # 2 ^ 53) prob = true ↔ k < favourable prob.
Proof.
  intros Hk. unfold Qltb, favourable. destruct prob as [n d]. cbn [Qnum Qden].
  rewrite Z.ltb_lt.
  change (Z.pos (2 ^ 53)) with (2 ^ 53).
  pose proof (Z.div_mod (- (n * 2 ^ 53)) (Z.pos d)) as Hdm.
  pose proof (Z.mod_pos_bound (- (n * 2 ^ 53)) (Z.pos d)) as Hb.
  set (q := - (n * 2 ^ 53) / Z.pos d) in *.
  set (r := - (n * 2 ^ 53) `mod` Z.pos d) in *.
  set (p := 2 ^ 53) in *.
  assert (k * Z.pos d < n * p ↔ k < - q) as Hiff by nia.
  rewrite Hiff. lia.
Qed.

(** Every draw of the tape is such an outcome. *)
Lemma draw_favourable g k prob :
  Qltb (draw g k) prob = true
  ↔ Z.of_N (tape g k mod 2 ^ 53)%N < favourable prob.
Proof.
  unfold draw. apply favourable_spec.
  assert (tape g k `mod` 2 ^ 53 < 2 ^ 53)%N as Hlt
    by (apply N.mod_lt; by vm_compute).
  split; [apply N2Z.is_nonneg|].
  change (2 ^ 53) with (Z.of_N (2 ^ 53)). by apply N2Z.inj_lt.
Qed.

Lemma draw_count_nonneg text cfg : 0 ≤ draw_count text cfg.
Proof. unfold draw_count. destruct (bool_decide _); lia. Qed.

(** A smaller positive interval gates at least as many boundaries. *)
Lemma draw_count_antitone text cfg1 cfg2 :
  0 < Interval cfg1 ≤ Interval cfg2 →
  draw_count text cfg2 ≤ draw_count text cfg1.
Proof.
  intros Hle. unfold draw_count. destruct (bool_decide _); [done|].
  rewrite !length_draw_boundaries by lia.
  apply Z.div_le_compat_l; lia.
Qed.

(** Sums over outcomes. *)
Lemma sum_below_succ M f : sum_below (N.succ M) f = sum_below M f + f M.
Proof. unfold sum_below. by rewrite N.peano_rect_succ. Qed.

Lemma sum_below_ext M f h :
  (∀ k, (k < M)%N → f k = h k) → sum_below M f = sum_below M h.
Proof.
  induction M as [|M IH] using N.peano_ind; intros Hext; [done|].
  rewrite !sum_below_succ, IH, (Hext M); [done | lia |].
  intros k Hk. apply Hext. lia.
Qed.

Lemma sum_below_linear M f c d :
  sum_below M (λ k, f k * c + d) = sum_below M f * c + Z.of_N M * d.
Proof.
  induction M as [|M IH] using N.peano_ind; [done|].
  rewrite !sum_below_succ, IH. lia.
Qed.

Lemma sum_below_shift M f d :
  sum_below M (λ k, d + f k) = Z.of_N M * d + sum_below M f.
Proof.
  induction M as [|M IH] using N.peano_ind; [done|].
  rewrite !sum_below_succ, IH. lia.
Qed.

Lemma sum_below_indicator M t :
  0 ≤ t →
  sum_below M (λ k, if Z.of_N k <? t then 1 else 0) = Z.min t (Z.of_N M).
Proof.
  intros Ht. induction M as [|M IH] using N.peano_ind; [cbn; lia|].
  rewrite sum_below_succ, IH.
  destruct (Z.ltb_spec (Z.of_N M) t); lia.
Qed.

Lemma sum_outcomes_ext M n : ∀ F G,
  (∀ ks, length ks = n → Forall (λ k, (k < M)%N) ks → F ks = G ks) →
  sum_outcomes M n F = sum_outcomes M n G.
Proof.
  induction n as [|n IH]; intros F G Hext; cbn [sum_outcomes].
  - by apply Hext.
  - apply sum_below_ext. intros k Hk. apply IH. intros ks Hlen Hks.
    apply Hext; [cbn; by f_equal | by constructor].
Qed.

Lemma sum_outcomes_plus M n : ∀ F c,
  sum_outcomes M n (λ ks, c + F ks)
  = c * Z.of_N M ^ Z.of_nat n + sum_outcomes M n F.
Proof.
  induction n as [|n IH]; intros F c; cbn [sum_outcomes].
  - cbn. lia.
  - rewrite (sum_below_ext M _
               (λ k, 1 * (c * Z.of_N M ^ Z.of_nat n)
                     + sum_outcomes M n (λ ks, F (k :: ks)))).
    2:{ intros k _. rewrite IH. lia. }
    rewrite sum_below_shift, Nat2Z.inj_succ, Z.pow_succ_r by lia. lia.
Qed.

Lemma favourable_bounds prob : 0 ≤ favourable prob ≤ 2 ^ 53.
Proof. unfold favourable. lia. Qed.

(** The draws of [source_of (k :: ks)] after the first are those of
    [source_of ks]. *)
Lemma marks_of_source_tail k ks prob j bs :
  marks_of (source_of (k :: ks)) prob (S j) bs
  = marks_of (source_of ks) prob j bs.
Proof. revert j. induction bs as [|b bs IH]; intros j; [done|]. cbn [marks_of]. by rewrite IH. Qed.

Lemma marks_of_source_head k ks prob b bs :
  (k < 2 ^ 53)%N →
  Z.of_nat (length (marks_of (source_of (k :: ks)) prob 0 (b :: bs)))
  = (if Z.of_N k <? favourable prob then 1 else 0)
    + Z.of_nat (length (marks_of (source_of ks) prob 0 bs)).
Proof.
  intros Hk. cbn [marks_of]. rewrite marks_of_source_tail.
  assert (draw (source_of (k :: ks)) 0 = (Z.of_N k # 2 ^ 53)) as ->.
  { unfold draw, source_of. cbn [tape nth]. by rewrite N.mod_small. }
  assert (0 ≤ Z.of_N k < 2 ^ 53) as Hk'.
  { split; [lia|]. change (2 ^ 53) with (Z.of_N (2 ^ 53)). lia. }
  pose proof (favourable_spec prob (Z.of_N k) Hk') as Hfav.
  destruct (Qltb (Z.of_N k # 2 ^ 53) prob), (Z.ltb_spec (Z.of_N k) (favourable prob));
    cbn [length]; lia.
Qed.

(** Summed over all outcomes of its draws, the number of marks is the
    number of gated boundaries times the number of favourable outcomes of
    one draw (times the outcomes of the other draws). *)
Lemma sum_marks prob bs :
  2 ^ 53 * sum_outcomes (2 ^ 53) (length bs)
             (λ ks, Z.of_nat (length (marks_of (source_of ks) prob 0 bs)))
  = Z.of_nat (length bs) * favourable prob * (2 ^ 53) ^ Z.of_nat (length bs).
Proof.
  remember (2 ^ 53)%N as Mn eqn:HMn.
  assert (Z.of_N Mn = 2 ^ 53) as HMz by (by rewrite HMn).
  induction bs as [|b bs IH]; [cbn [length sum_outcomes marks_of]; lia|].
  cbn [length sum_outcomes].
  set (n := length bs) in *.
  set (rest := sum_outcomes Mn n
                 (λ ks, Z.of_nat (length (marks_of (source_of ks) prob 0 bs)))) in *.
  rewrite (sum_below_ext Mn _
             (λ k, (if Z.of_N k <? favourable prob then 1 else 0)
                   * ((2 ^ 53) ^ Z.of_nat n) + rest)).
  2:{ intros k Hk.
      rewrite (sum_outcomes_ext Mn n _
                 (λ ks, (if Z.of_N k <? favourable prob then 1 else 0)
                        + Z.of_nat (length (marks_of (source_of ks) prob 0 bs)))).
      - rewrite sum_outcomes_plus. fold rest. rewrite HMz. lia.
      - intros ks _ _. apply marks_of_source_head. by rewrite <- HMn. }
  rewrite sum_below_linear, sum_below_indicator by apply favourable_bounds.
  rewrite HMz.
  pose proof (favourable_bounds prob) as Hfav.
  rewrite Z.min_l by lia.
  rewrite Nat2Z.inj_succ, Z.pow_succ_r by lia.
  set (P := (2 ^ 53) ^ Z.of_nat n) in *. set (M := 2 ^ 53) in *.
  replace (M * (favourable prob * P + M * rest))
    with (M * favourable prob * P + M * (M * rest)) by lia.
  rewrite IH. lia.
Qed.

(** What a call inserts, and how many probability draws it makes. *)
Lemma in_body_insertions_spec text cfg g :
  usable cfg →
  in_body_insertions text cfg g
  = if bool_decide (strip text = []) then 0
    else Z.of_nat (length (marks_of g (Implantation_Probability cfg) (cursor g)
                             (draw_boundaries text (Interval cfg)))).
Proof.
  intros Husable. unfold in_body_insertions.
  destruct (bool_decide_reflect (strip text = [])) as [Hblank|Hblank].
  - unfold insert_adaptive_invisible_traps.
    by rewrite bool_decide_eq_true_2.
  - destruct (insert_structure text cfg g Husable Hblank)
      as (body & c1 & c2 & Hrun & _ & Hlen & _).
    rewrite Hrun, length_app, Hlen. cbn [length]. f_equal. lia.
Qed.

Lemma probability_draws_spec text cfg :
  Interval cfg ≠ 0 →
  probability_draws text cfg
  = if bool_decide (strip text = []) then 0%nat
    else length (draw_boundaries text (Interval cfg)).
Proof.
  intros Hinterval. unfold probability_draws.
  rewrite draws_of_run_spec by done. by destruct (bool_decide _).
Qed.

(** The mean number of in-body insertions of the calls, computed
    exactly. *)
Lemma mean_insertions_exact text cfg :
  usable cfg →
  (mean_insertions text cfg
   == inject_Z (draw_count text cfg)
      * hit_chance (Implantation_Probability cfg))%Q.
Proof.
  intros Husable. unfold mean_insertions, draw_count.
  rewrite probability_draws_spec by apply Husable.
  pose proof (sum_marks (Implantation_Probability cfg)
                (draw_boundaries text (Interval cfg))) as Hsum.
  remember (2 ^ 53)%N as Mn eqn:HMn.
  rewrite (sum_outcomes_ext Mn _ _
             (λ ks, if bool_decide (strip text = []) then 0
                    else Z.of_nat (length (marks_of (source_of ks)
                                             (Implantation_Probability cfg) 0
                                             (draw_boundaries text (Interval cfg)))))).
  2:{ intros ks _ _. by rewrite in_body_insertions_spec. }
  destruct (bool_decide (strip text = [])).
  - cbn [sum_outcomes]. unfold Qeq, Qmult, inject_Z, hit_chance.
    cbn [Qnum Qden]. lia.
  - set (n := length (draw_boundaries text (Interval cfg))) in *.
    unfold Qeq, Qmult, inject_Z, hit_chance. cbn [Qnum Qden].
    rewrite Z2Pos.id by (apply Z.pow_pos_nonneg; lia).
    change (Z.pos (1 * 2 ^ 53)) with (2 ^ 53). lia.
Qed.

(** [C9] Monotonic interference ordering.  The intervals of the three
    levels decrease and their probabilities increase from Mild to Severe,
    and the pools of each level are among those of the next.  For every
    text, the expected number of in-body insertions of a call, the mean
    of what [insert_adaptive_invisible_traps] puts into the body over the
    equally likely outcomes of its probability draws, is the number of
    boundaries with a draw times the chance that a 53-bit draw falls below
    the probability of the level, and it does not decrease from Mild to
    Moderate to Severe; the same ordering holds for the number of
    boundaries with a draw times the probability itself. *)
Theorem monotonic_interference_ordering :
  Interval Severe < Interval Moderate < Interval Mild
  ∧ (Implantation_Probability Mild < Implantation_Probability Moderate)%Q
  ∧ (Implantation_Probability Moderate < Implantation_Probability Severe)%Q
  ∧ Character_Pool Mild ⊆ Character_Pool Moderate
  ∧ Character_Pool Moderate ⊆ Character_Pool Severe
  ∧ level_chars (Character_Pool Mild) ⊆ level_chars (Character_Pool Moderate)
  ∧ level_chars (Character_Pool Moderate) ⊆ level_chars (Character_Pool Severe)
  ∧ ∀ text,
      (draw_count text Mild ≤ draw_count text Moderate ≤ draw_count text Severe)
      ∧ (expected_insertions text Mild <= expected_insertions text Moderate)%Q
      ∧ (expected_insertions text Moderate <= expected_insertions text Severe)%Q
      ∧ (expected_insertions_exact text Mild
         <= expected_insertions_exact text Moderate)%Q
      ∧ (expected_insertions_exact text Moderate
         <= expected_insertions_exact text Severe)%Q
      ∧ Z.of_nat (probability_draws text Mild) = draw_count text Mild
      ∧ Z.of_nat (probability_draws text Moderate) = draw_count text Moderate
      ∧ Z.of_nat (probability_draws text Severe) = draw_count text Severe
      ∧ (mean_insertions text Mild == expected_insertions_exact text Mild)%Q
      ∧ (mean_insertions text Moderate
         == expected_insertions_exact text Moderate)%Q
      ∧ (mean_insertions text Severe == expected_insertions_exact text Severe)%Q
      ∧ (mean_insertions text Mild <= mean_insertions text Moderate)%Q
      ∧ (mean_insertions text Moderate <= mean_insertions text Severe)%Q.
Proof.
  split; [by vm_compute|]. do 2 (split; [by vm_compute|]).
  do 4 (split; [by apply (bool_decide_unpack _); vm_compute|]).
  intros text.
  pose proof (draw_count_nonneg text Mild) as H0.
  pose proof (draw_count_antitone text Moderate Mild) as H1.
  pose proof (draw_count_antitone text Severe Moderate) as H2.
  cbn [Interval Mild Moderate Severe] in H1, H2.
  specialize (H1 ltac:(lia)). specialize (H2 ltac:(lia)).
  split; [lia|].
  assert ((expected_insertions text Mild <= expected_insertions text Moderate)%Q
          ∧ (expected_insertions text Moderate
             <= expected_insertions text Severe)%Q
          ∧ (expected_insertions_exact text Mild
             <= expected_insertions_exact text Moderate)%Q
          ∧ (expected_insertions_exact text Moderate
             <= expected_insertions_exact text Severe)%Q)
    as (Ha & Hb & Hc & Hd).
  { unfold expected_insertions, expected_insertions_exact, hit_chance.
    change (favourable (Implantation_Probability Mild))
      with 1801439850948199.
    change (favourable (Implantation_Probability Moderate))
      with 4503599627370496.
    change (favourable (Implantation_Probability Severe))
      with 7205759403792794.
    unfold Qle, Qmult, inject_Z. cbn [Qnum Qden Implantation_Probability Mild
      Moderate Severe double_0_2 double_0_5 double_0_8 Pos.mul].
    repeat split; lia. }
  do 4 (split; [done|]).
  assert (∀ cfg, registered cfg →
            Z.of_nat (probability_draws text cfg) = draw_count text cfg)
    as Hdraws.
  { intros cfg Hreg. unfold draw_count.
    rewrite probability_draws_spec by apply (registered_usable cfg Hreg).
    by destruct (bool_decide _). }
  pose proof (mean_insertions_exact text Mild
                (registered_usable _ registered_Mild)) as Emild.
  pose proof (mean_insertions_exact text Moderate
                (registered_usable _ registered_Moderate)) as Emoderate.
  pose proof (mean_insertions_exact text Severe
                (registered_usable _ registered_Severe)) as Esevere.
  fold (expected_insertions_exact text Mild) in Emild.
  fold (expected_insertions_exact text Moderate) in Emoderate.
  fold (expected_insertions_exact text Severe) in Esevere.
  split; [apply Hdraws, registered_Mild|].
  split; [apply Hdraws, registered_Moderate|].
  split; [apply Hdraws, registered_Severe|].
  do 3 (split; [done|]).
  split.
  - by rewrite Emild, Emoderate.
  - by rewrite Emoderate, Esevere.
Qed.


(* ===================================================================== *)
(** ** Further properties: drawing a character                           *)
(* ===================================================================== *)

Lemma pool_nonempty pool_name chars :
  INVISIBLE_CHAR_POOLS !! pool_name = Some chars → chars ≠ [].
Proof.
  unfold INVISIBLE_CHAR_POOLS. rewrite !lookup_insert_Some, lookup_empty.
  intros [[_ <-] | [_ [[_ <-] | [_ [[_ <-] | [_ ?]]]]]]; done.
Qed.

Lemma level_chars_nonempty used_pools :
  Forall (λ pool_name, is_Some (INVISIBLE_CHAR_POOLS !! pool_name)) used_pools →
  used_pools ≠ [] → level_chars used_pools ≠ [].
Proof.
  intros Hknown Hne. destruct Hknown as [|pool_name rest [chars Hchars] _]; [done|].
  unfold level_chars. cbn. rewrite Hchars. cbn.
  apply pool_nonempty in Hchars. by destruct chars.
Qed.

Lemma collect_unknown used_pools g :
  Exists (λ pool_name, INVISIBLE_CHAR_POOLS !! pool_name = None) used_pools →
  ∀ acc,
    foldM (λ all_chars pool_name,
             pool ← dict_getitem INVISIBLE_CHAR_POOLS pool_name;
             mret (all_chars ++ pool)) acc used_pools g
    = Raise KeyError.
Proof.
  induction used_pools as [|pool_name rest IH]; intros Hunknown acc.
  - by apply Exists_nil in Hunknown.
  - cbn [foldM].
    destruct (INVISIBLE_CHAR_POOLS !! pool_name) as [chars|] eqn:Hlookup.
    + rewrite (bind_Ok _ _ g (acc ++ chars) g).
      * apply IH. apply Exists_cons in Hunknown as [Hhead|Htail]; [|done].
        congruence.
      * erewrite bind_Ok; [reflexivity|].
        unfold dict_getitem. by rewrite Hlookup.
    + apply bind_Raise. apply bind_Raise.
      unfold dict_getitem. by rewrite Hlookup.
Qed.

(** Every way a call of [get_random_invisible_char] can end.  A pool name
    that is not in [INVISIBLE_CHAR_POOLS] raises [KeyError]; an empty list
    of pool names raises [IndexError]; otherwise the call returns the
    character at index (outcome mod length) of the concatenation of the
    named pools, in the order the names are given, and advances the random
    source by one draw. *)
Theorem get_random_invisible_char_cases used_pools g :
  (Exists (λ pool_name, INVISIBLE_CHAR_POOLS !! pool_name = None) used_pools →
   get_random_invisible_char used_pools g = Raise KeyError)
  ∧ (used_pools = [] →
     get_random_invisible_char used_pools g = Raise IndexError)
  ∧ (Forall (λ pool_name, is_Some (INVISIBLE_CHAR_POOLS !! pool_name)) used_pools →
     used_pools ≠ [] →
     ∃ c,
       get_random_invisible_char used_pools g = Ok (c, advance g)
       ∧ level_chars used_pools
           !! N.to_nat (tape g (cursor g)
                        `mod` N.of_nat (length (level_chars used_pools)))%N
         = Some c
       ∧ is_pool_char c = true).
Proof.
  split; [|split].
  - intros Hunknown. unfold get_random_invisible_char.
    apply bind_Raise. by apply collect_unknown.
  - intros ->. reflexivity.
  - intros Hknown Hne.
    pose proof (level_chars_nonempty used_pools Hknown Hne) as Hchars.
    unfold get_random_invisible_char.
    erewrite bind_Ok; [|by apply collect_pools]. cbn [app].
    destruct (level_chars used_pools) as [|c0 chars] eqn:Hlevel; [done|].
    unfold random_choice. eexists. split; [reflexivity|].
    set (i := N.to_nat _).
    assert (i < length (c0 :: chars))%nat as Hi.
    { subst i.
      pose proof (N.mod_lt (tape g (cursor g)) (N.of_nat (length (c0 :: chars)))).
      cbn [length] in *. lia. }
    destruct (nth_lookup_or_length (c0 :: chars) i c0) as [Hnth|]; [|lia].
    split; [exact Hnth|].
    apply (level_chars_pool used_pools). rewrite Hlevel.
    by eapply list_elem_of_lookup_2.
Qed.

Lemma get_random_invisible_char_cases_witness :
  get_random_invisible_char ["Basic Pool"; "Spare Pol"] tapeid = Raise KeyError
  ∧ ∃ c,
      get_random_invisible_char ["Basic Pool"; "Expansion Pool"] tapeid
      = Ok (c, advance tapeid)
      ∧ is_pool_char c = true.
Proof.
  split.
  - apply (get_random_invisible_char_cases ["Basic Pool"; "Spare Pol"] tapeid).
    apply Exists_cons_tl, Exists_cons_hd. reflexivity.
  - destruct (get_random_invisible_char_cases ["Basic Pool"; "Expansion Pool"]
                tapeid) as (_ & _ & Hok).
    destruct Hok as (c & Hrun & _ & Hpool).
    + repeat constructor; eexists; reflexivity.
    + discriminate.
    + exists c. split; [exact Hrun | exact Hpool].
Defined.

(* ===================================================================== *)
(** ** Further properties: configurations that raise                     *)
(* ===================================================================== *)

Lemma pools_known_or_unknown used_pools :
  Forall (λ pool_name, is_Some (INVISIBLE_CHAR_POOLS !! pool_name)) used_pools
  ∨ Exists (λ pool_name, INVISIBLE_CHAR_POOLS !! pool_name = None) used_pools.
Proof.
  destruct (Forall_Exists_dec
              (λ pool_name, is_Some (INVISIBLE_CHAR_POOLS !! pool_name))
              (λ pool_name, INVISIBLE_CHAR_POOLS !! pool_name = None)
              (λ pool_name,
                 match INVISIBLE_CHAR_POOLS !! pool_name as o
                   return {is_Some o} + {o = None} with
                 | Some chars => left (ex_intro _ chars eq_refl)
                 | None => right eq_refl
                 end) used_pools); auto.
Qed.

(** With interval 0 an iteration raises at a valid boundary and does
    nothing at any other. *)
Lemma mark_step_zero text prob char_count insert_positions i g :
  (1 ≤ i < length text)%nat →
  mark_step text 0 prob (char_count, insert_positions) i g =
  if valid_at text i then Raise ZeroDivisionError
  else Ok ((char_count, insert_positions), g).
Proof.
  intros Hi. unfold mark_step, valid_at.
  destruct (lookup_lt_is_Some_2 text (i - 1)) as [prev_char Hprev]; [lia|].
  destruct (lookup_lt_is_Some_2 text i) as [next_char Hnext]; [lia|].
  rewrite Hprev, Hnext.
  erewrite bind_Ok; [| unfold list_getitem; rewrite Hprev; reflexivity].
  erewrite bind_Ok; [| unfold list_getitem; rewrite Hnext; reflexivity].
  by destruct (is_valid_insert_pos prev_char next_char).
Qed.

Lemma mark_prefix_zero text prob n g :
  (n ≤ length text - 1)%nat →
  foldM (mark_step text 0 prob) (0, []) (seq 1 n) g =
  if bool_decide (filter (λ i, valid_at text i) (seq 1 n) = [])
  then Ok ((0, []), g) else Raise ZeroDivisionError.
Proof.
  induction n as [|n IH]; intros Hn; [done|].
  rewrite seq_S, foldM_app, filter_app, IH by lia. cbn [Nat.add].
  destruct (filter (λ i, valid_at text i) (seq 1 n)) as [|i0 valid]; cbn [app].
  - rewrite bool_decide_eq_true_2 by done. cbn [foldM].
    unfold mbind, Rand_bind. rewrite mark_step_zero by lia.
    destruct (valid_at text (S n)) eqn:Hvalid.
    + rewrite filter_cons_True by (by apply Is_true_true). done.
    + rewrite filter_cons_False by (by apply Is_true_false). done.
  - by rewrite !bool_decide_eq_false_2.
Qed.

Lemma insert_zero_interval_raises text cfg g :
  Interval cfg = 0 → strip text ≠ [] → eligible_boundaries text ≠ [] →
  insert_adaptive_invisible_traps text cfg g = Raise ZeroDivisionError.
Proof.
  intros Hzero Hblank Heligible. unfold insert_adaptive_invisible_traps.
  rewrite bool_decide_eq_false_2, Hzero by done.
  apply bind_Raise. unfold mark_positions.
  rewrite mark_prefix_zero by done. by rewrite bool_decide_eq_false_2.
Qed.

(** What interval 0 does.  On non-blank text with at least one eligible
    boundary the call raises [ZeroDivisionError]; with no eligible
    boundary the modulus is never computed and, when the pool list is not
    empty and names only pools of [INVISIBLE_CHAR_POOLS], the call returns
    the text, a space and two characters of these pools, after two
    draws. *)
Theorem zero_interval text cfg g :
  Interval cfg = 0 → strip text ≠ [] →
  (eligible_boundaries text ≠ [] →
   insert_adaptive_invisible_traps text cfg g = Raise ZeroDivisionError)
  ∧ (eligible_boundaries text = [] →
     Forall (λ pool_name, is_Some (INVISIBLE_CHAR_POOLS !! pool_name))
            (Character_Pool cfg) →
     Character_Pool cfg ≠ [] →
     ∃ c1 c2,
       insert_adaptive_invisible_traps text cfg g
       = Ok (text ++ [space; c1; c2],
             {| tape := tape g; cursor := cursor g + 2 |})
       ∧ c1 ∈ level_chars (Character_Pool cfg)
       ∧ c2 ∈ level_chars (Character_Pool cfg)
       ∧ is_pool_char c1 = true ∧ is_pool_char c2 = true).
Proof.
  intros Hzero Hblank.
  assert (mark_positions text 0 (Implantation_Probability cfg) g
          = if bool_decide (eligible_boundaries text = [])
            then Ok ((0, []), g) else Raise ZeroDivisionError) as Hmark.
  { unfold mark_positions. by rewrite mark_prefix_zero. }
  unfold insert_adaptive_invisible_traps.
  rewrite bool_decide_eq_false_2, Hzero by done. split.
  - intros Heligible. rewrite bool_decide_eq_false_2 in Hmark by done.
    by apply bind_Raise.
  - intros Heligible Hknown Hne.
    rewrite bool_decide_eq_true_2 in Hmark by done.
    erewrite bind_Ok; [|exact Hmark]. cbn [reverse rev_append foldM].
    erewrite bind_Ok; [|reflexivity].
    destruct (end_mark_spec _ Hknown (level_chars_nonempty _ Hknown Hne) g)
      as (c1 & c2 & Hend & Hc1 & Hc2).
    erewrite bind_Ok; [|exact Hend]. exists c1, c2.
    split; [done|]. do 2 (split; [done|]).
    split; by eapply level_chars_pool.
Qed.

Lemma zero_interval_witness :
  insert_adaptive_invisible_traps (str "Hello")
    (mkCfg 0 double_0_5 ["Basic Pool"]) tape0 = Raise ZeroDivisionError
  ∧ ∃ c1 c2,
      insert_adaptive_invisible_traps (str "a,b")
        (mkCfg 0 double_0_5 ["Basic Pool"]) tape0
      = Ok (str "a,b" ++ [space; c1; c2],
            {| tape := tape tape0; cursor := cursor tape0 + 2 |})
      ∧ c1 ∈ level_chars ["Basic Pool"]
      ∧ c2 ∈ level_chars ["Basic Pool"]
      ∧ is_pool_char c1 = true ∧ is_pool_char c2 = true.
Proof.
  split.
  - apply (zero_interval (str "Hello") (mkCfg 0 double_0_5 ["Basic Pool"]) tape0);
      [reflexivity | vm_compute; discriminate | vm_compute; discriminate].
  - apply (zero_interval (str "a,b") (mkCfg 0 double_0_5 ["Basic Pool"]) tape0);
      [reflexivity | vm_compute; discriminate | reflexivity | | discriminate].
    repeat constructor. eexists. reflexivity.
Defined.

(** A non-blank call draws the trailing marker whatever the text, so a
    draw that raises makes the call raise. *)
Lemma insert_draw_raises text cfg g e :
  strip text ≠ [] → Interval cfg ≠ 0 →
  (∀ g', get_random_invisible_char (Character_Pool cfg) g' = Raise e) →
  insert_adaptive_invisible_traps text cfg g = Raise e.
Proof.
  intros Hblank Hinterval Hraise. unfold insert_adaptive_invisible_traps.
  rewrite bool_decide_eq_false_2 by done.
  erewrite bind_Ok; [|by apply mark_positions_spec].
  cbv beta iota.
  destruct (reverse (marks_of _ _ _ _)) as [|pos rest].
  - cbn [foldM]. erewrite bind_Ok; [|reflexivity].
    apply bind_Raise. cbn [replicateM]. apply bind_Raise, Hraise.
  - apply bind_Raise. cbn [foldM]. apply bind_Raise, bind_Raise, Hraise.
Qed.

Lemma insert_unknown_pool text cfg g :
  strip text ≠ [] → Interval cfg ≠ 0 →
  Exists (λ pool_name, INVISIBLE_CHAR_POOLS !! pool_name = None)
         (Character_Pool cfg) →
  insert_adaptive_invisible_traps text cfg g = Raise KeyError.
Proof.
  intros Hblank Hinterval Hunknown.
  apply insert_draw_raises; [done | done |]. intros g'.
  unfold get_random_invisible_char. apply bind_Raise. by apply collect_unknown.
Qed.

Lemma insert_no_pool text cfg g :
  strip text ≠ [] → Interval cfg ≠ 0 → Character_Pool cfg = [] →
  insert_adaptive_invisible_traps text cfg g = Raise IndexError.
Proof.
  intros Hblank Hinterval Hempty.
  apply insert_draw_raises; [done | done |]. intros g'. by rewrite Hempty.
Qed.

(** Errors of the pool list.  On non-blank text (and a non-zero interval)
    a pool name missing from [INVISIBLE_CHAR_POOLS] makes the call raise
    [KeyError] and an empty pool list makes it raise [IndexError], even
    when no boundary is marked; on blank text the call returns the empty
    string before it reads the configuration at all. *)
Theorem pool_errors text cfg g :
  (strip text = [] → insert_adaptive_invisible_traps text cfg g = Ok ([], g))
  ∧ (strip text ≠ [] → Interval cfg ≠ 0 →
     Exists (λ pool_name, INVISIBLE_CHAR_POOLS !! pool_name = None)
            (Character_Pool cfg) →
     insert_adaptive_invisible_traps text cfg g = Raise KeyError)
  ∧ (strip text ≠ [] → Interval cfg ≠ 0 → Character_Pool cfg = [] →
     insert_adaptive_invisible_traps text cfg g = Raise IndexError).
Proof.
  split; [|split].
  - intros Hblank. unfold insert_adaptive_invisible_traps.
    by rewrite bool_decide_eq_true_2.
  - intros Hblank Hinterval Hunknown.
    by apply insert_unknown_pool.
  - intros Hblank Hinterval Hempty.
    by apply insert_no_pool.
Qed.

Lemma pool_errors_witness :
  insert_adaptive_invisible_traps (str "   ")
    (mkCfg 0 double_0_5 ["No Pool"]) tape0 = Ok ([], tape0)
  ∧ insert_adaptive_invisible_traps (str "a,b")
      (mkCfg 5 double_0_5 ["Basic Pool"; "No Pool"]) tape0 = Raise KeyError
  ∧ insert_adaptive_invisible_traps (str "a,b") (mkCfg 5 double_0_5 []) tape0
    = Raise IndexError.
Proof.
  split; [|split].
  - apply (pool_errors (str "   ") (mkCfg 0 double_0_5 ["No Pool"]) tape0).
    reflexivity.
  - apply (pool_errors (str "a,b") (mkCfg 5 double_0_5 ["Basic Pool"; "No Pool"])
             tape0); [vm_compute; discriminate | discriminate |].
    apply Exists_cons_tl, Exists_cons_hd. reflexivity.
  - apply (pool_errors (str "a,b") (mkCfg 5 double_0_5 []) tape0);
      [vm_compute; discriminate | discriminate | reflexivity].
Defined.

(** The configurations on which no call raises are exactly the usable
    ones: a non-zero interval, pool names that are all in
    [INVISIBLE_CHAR_POOLS], and at least one pool. *)
Theorem usable_iff_never_raises cfg :
  (Interval cfg ≠ 0
   ∧ Forall (λ pool_name, is_Some (INVISIBLE_CHAR_POOLS !! pool_name))
            (Character_Pool cfg)
   ∧ Character_Pool cfg ≠ [])
  ↔ ∀ text g, ∃ out g',
      insert_adaptive_invisible_traps text cfg g = Ok (out, g').
Proof.
  split.
  - intros (Hinterval & Hknown & Hne) text g.
    destruct (decide (strip text = [])) as [Hblank|Hblank].
    + exists [], g. unfold insert_adaptive_invisible_traps.
      by rewrite bool_decide_eq_true_2.
    + destruct (insert_structure text cfg g) as (body & c1 & c2 & Hrun & _).
      * split; [done|]. split; [done|]. by apply level_chars_nonempty.
      * done.
      * by eexists _, _.
  - intros Htotal.
    assert (Interval cfg ≠ 0) as Hinterval.
    { intros Hzero. destruct (Htotal (str "ab") tape0) as (out & g' & Hrun).
      rewrite insert_zero_interval_raises in Hrun; by vm_compute. }
    split; [done|].
    assert (strip (str "a") ≠ []) as Hblank by (by vm_compute).
    destruct (pools_known_or_unknown (Character_Pool cfg)) as [Hknown|Hunknown].
    + split; [done|]. intros Hempty.
      destruct (Htotal (str "a") tape0) as (out & g' & Hrun).
      by rewrite insert_no_pool in Hrun.
    + destruct (Htotal (str "a") tape0) as (out & g' & Hrun).
      by rewrite insert_unknown_pool in Hrun.
Qed.

(* ===================================================================== *)
(** ** Further properties: where the inserted characters land           *)
(* ===================================================================== *)

Lemma lookup_list_insert_at_lt {A} pos (x : A) l j :
  (j < pos ≤ length l)%nat → list_insert_at pos x l !! j = l !! j.
Proof.
  intros Hj. unfold list_insert_at.
  rewrite lookup_app_l by (rewrite length_take; lia).
  apply lookup_take_lt. lia.
Qed.

Lemma lookup_list_insert_at_eq {A} pos (x : A) l :
  (pos ≤ length l)%nat → list_insert_at pos x l !! pos = Some x.
Proof.
  intros Hpos. unfold list_insert_at.
  rewrite lookup_app_r by (rewrite length_take; lia).
  rewrite length_take_le by lia. by rewrite Nat.sub_diag.
Qed.

Lemma lookup_list_insert_at_gt {A} pos (x : A) l j :
  (pos ≤ j)%nat → (pos ≤ length l)%nat →
  list_insert_at pos x l !! S j = l !! j.
Proof.
  intros Hj Hpos. unfold list_insert_at.
  rewrite lookup_app_r by (rewrite length_take; lia).
  rewrite length_take_le by lia.
  replace (S j - pos)%nat with (S (j - pos)) by lia.
  change ((x :: drop pos l) !! S (j - pos)%nat) with (drop pos l !! (j - pos)%nat).
  rewrite lookup_drop. f_equal. lia.
Qed.

Lemma positions_upto_all ps j :
  Forall (λ p, (p ≤ j)%nat) ps → positions_upto ps j = length ps.
Proof. intros H. unfold positions_upto. by rewrite filter_id. Qed.

Lemma positions_before_all ps p :
  Forall (λ q, (q < p)%nat) ps → positions_before ps p = length ps.
Proof. intros H. unfold positions_before. by rewrite filter_id. Qed.

Lemma positions_upto_reverse ps j :
  positions_upto (reverse ps) j = positions_upto ps j.
Proof. unfold positions_upto. by rewrite filter_reverse, length_reverse. Qed.

Lemma positions_before_reverse ps p :
  positions_before (reverse ps) p = positions_before ps p.
Proof. unfold positions_before. by rewrite filter_reverse, length_reverse. Qed.

(** In a strictly descending list a member is counted once. *)
Lemma positions_upto_member ps p :
  StronglySorted (flip lt) ps → p ∈ ps →
  positions_upto ps p = S (positions_before ps p).
Proof.
  induction 1 as [|q rest Hsorted IH Hbelow]; intros Hp.
  - by apply elem_of_nil in Hp.
  - unfold flip in Hbelow. apply elem_of_cons in Hp as [->|Hp].
    + unfold positions_upto, positions_before.
      rewrite filter_cons_True, filter_cons_False by lia. cbn [length].
      rewrite !filter_id; [done | done |].
      eapply Forall_impl; [exact Hbelow|]. cbn. lia.
    + assert (p < q)%nat as Hpq by (by eapply Forall_forall in Hbelow).
      specialize (IH Hp). unfold positions_upto, positions_before in *.
      by rewrite !filter_cons_False by lia.
Qed.

Lemma seq_sorted start len : StronglySorted lt (seq start len).
Proof.
  revert start. induction len as [|len IH]; intros start; cbn; constructor.
  - apply IH.
  - apply Forall_forall. intros x Hx%elem_of_seq. lia.
Qed.

Lemma sublist_sorted {A} (R : relation A) l1 l2 :
  l1 `sublist_of` l2 → StronglySorted R l2 → StronglySorted R l1.
Proof.
  induction 1 as [|x l1 l2 Hsub IH|x l1 l2 Hsub IH]; intros Hsorted.
  - done.
  - apply StronglySorted_cons in Hsorted as [Hx Hsorted].
    apply StronglySorted_cons. split; [|by apply IH].
    apply Forall_forall. intros y Hy.
    eapply Forall_forall in Hx; [exact Hx|]. by eapply elem_of_sublist.
  - apply StronglySorted_cons in Hsorted as [_ Hsorted]. by apply IH.
Qed.

Lemma sorted_reverse (l : list nat) :
  StronglySorted lt l → StronglySorted (flip lt) (reverse l).
Proof.
  induction 1 as [|x l Hsorted IH Hx].
  - constructor.
  - rewrite reverse_cons. apply StronglySorted_app_2.
    + intros y z Hy Hz. rewrite elem_of_reverse in Hy.
      apply list_elem_of_singleton in Hz as ->.
      unfold flip. by eapply Forall_forall in Hx.
    + done.
    + repeat constructor.
Qed.

(** The marked positions are strictly ascending. *)
Lemma marks_of_sorted text interval g prob k :
  StronglySorted lt (marks_of g prob k (draw_boundaries text interval)).
Proof.
  eapply sublist_sorted; [apply marks_of_sublist|].
  eapply sublist_sorted; [apply sublist_filter|]. apply seq_sorted.
Qed.

Lemma insert_positions_of_spec text cfg g :
  Interval cfg ≠ 0 →
  insert_positions_of text cfg g
  = marks_of g (Implantation_Probability cfg) (cursor g)
      (draw_boundaries text (Interval cfg)).
Proof.
  intros Hinterval. unfold insert_positions_of.
  by rewrite mark_positions_spec.
Qed.

Section layout.
Variable used_pools : list string.
Hypothesis pools_known :
  Forall (λ pool_name, is_Some (INVISIBLE_CHAR_POOLS !! pool_name)) used_pools.
Hypothesis pools_nonempty : level_chars used_pools ≠ [].

(** Inserting at descending positions: every character of the list
    moves right by the number of positions at or before it, and the
    character put in for a position lands right before it. *)
Lemma insert_loop_layout insert_positions : ∀ result g body g',
  StronglySorted (flip lt) insert_positions →
  Forall (λ pos, (1 ≤ pos < length result)%nat) insert_positions →
  foldM (λ result pos,
           c ← get_random_invisible_char used_pools;
           mret (list_insert_at pos c result)) result insert_positions g
  = Ok (body, g') →
  (∀ j x, result !! j = Some x →
     body !! (j + positions_upto insert_positions j)%nat = Some x)
  ∧ (∀ pos, pos ∈ insert_positions →
       ∃ c, c ∈ level_chars used_pools
            ∧ body !! (pos + positions_before insert_positions pos)%nat = Some c).
Proof.
  induction insert_positions as [|pos rest IH];
    intros result g body g' Hsorted Hinside Hrun.
  - injection Hrun as <- _. split.
    + intros j x Hj. unfold positions_upto. cbn. by rewrite Nat.add_0_r.
    + intros pos Hpos. by apply elem_of_nil in Hpos.
  - apply StronglySorted_cons in Hsorted as [Hbelow Hsorted].
    unfold flip in Hbelow.
    apply Forall_cons in Hinside as [Hpos Hrest].
    destruct (get_random_invisible_char_spec used_pools pools_known
                pools_nonempty g) as (c & Hdraw & Hc).
    cbn [foldM] in Hrun.
    erewrite bind_Ok in Hrun; [|erewrite bind_Ok; [reflexivity | exact Hdraw]].
    apply IH in Hrun as [Hkeep Hput]; [|done|].
    2:{ eapply Forall_impl; [exact Hrest|]. cbn. intros p Hp.
        rewrite length_list_insert_at. lia. }
    split.
    + intros j x Hj. destruct (decide (j < pos)%nat) as [Hlt|Hge].
      * unfold positions_upto. rewrite filter_cons_False by lia.
        apply Hkeep. rewrite lookup_list_insert_at_lt by lia. done.
      * assert (Forall (λ p, (p ≤ j)%nat) rest) as Hall.
        { eapply Forall_impl; [exact Hbelow|]. cbn. lia. }
        assert (Forall (λ p, (p ≤ S j)%nat) rest) as Hall'.
        { eapply Forall_impl; [exact Hbelow|]. cbn. lia. }
        specialize (Hkeep (S j) x).
        rewrite lookup_list_insert_at_gt in Hkeep by lia.
        rewrite positions_upto_all in Hkeep by done.
        unfold positions_upto. rewrite filter_cons_True by lia. cbn [length].
        fold (positions_upto rest j). rewrite positions_upto_all by done.
        replace (j + S (length rest))%nat with (S j + length rest)%nat by lia.
        by apply Hkeep.
    + intros p Hp. apply elem_of_cons in Hp as [->|Hp].
      * exists c. split; [done|].
        unfold positions_before. rewrite filter_cons_False by lia.
        fold (positions_before rest pos).
        rewrite positions_before_all by done.
        specialize (Hkeep pos c).
        rewrite lookup_list_insert_at_eq in Hkeep by lia.
        rewrite positions_upto_all in Hkeep; [by apply Hkeep|].
        eapply Forall_impl; [exact Hbelow|]. cbn. lia.
      * assert (p < pos)%nat as Hlt by (by eapply Forall_forall in Hbelow).
        unfold positions_before. rewrite filter_cons_False by lia.
        by apply Hput.
Qed.
End layout.

(** A call on non-blank text, with the layout of its body. *)
Lemma insert_run text cfg g :
  usable cfg → strip text ≠ [] →
  let chars := level_chars (Character_Pool cfg) in
  let gated := draw_boundaries text (Interval cfg) in
  let marks := insert_positions_of text cfg g in
  ∃ body c1 c2,
    insert_adaptive_invisible_traps text cfg g
    = Ok (body ++ [space; c1; c2],
          {| tape := tape g;
             cursor := cursor g + length gated + length marks + 2 |})
    ∧ length body = (length text + length marks)%nat
    ∧ (∀ j x, text !! j = Some x →
         body !! (j + positions_upto marks j)%nat = Some x)
    ∧ (∀ pos, pos ∈ marks →
         ∃ c, c ∈ chars
              ∧ body !! (pos + positions_before marks pos)%nat = Some c)
    ∧ c1 ∈ chars ∧ c2 ∈ chars.
Proof.
  intros (Hinterval & Hknown & Hnonempty) Hblank chars gated marks.
  subst marks. rewrite insert_positions_of_spec by done.
  set (marks := marks_of _ _ _ _).
  unfold insert_adaptive_invisible_traps.
  rewrite bool_decide_eq_false_2 by done.
  erewrite bind_Ok; [|by apply mark_positions_spec]. fold gated marks.
  destruct (insert_loop_spec _ Hknown Hnonempty (reverse marks) text
              {| tape := tape g; cursor := cursor g + length gated |})
    as (body & Hbody & _ & Hlen & _).
  { apply Forall_reverse, marks_of_inside. }
  pose proof (λ Hsorted Hinside,
                insert_loop_layout _ Hknown Hnonempty (reverse marks) text _ body _
                  Hsorted Hinside Hbody) as Hlayout.
  destruct Hlayout as [Hkeep Hput].
  { apply sorted_reverse, marks_of_sorted. }
  { apply Forall_reverse, marks_of_inside. }
  erewrite bind_Ok; [|exact Hbody]. cbn [tape cursor].
  destruct (end_mark_spec _ Hknown Hnonempty
              {| tape := tape g;
                 cursor := cursor g + length gated + length (reverse marks) |})
    as (c1 & c2 & Hmark & Hc1 & Hc2).
  erewrite bind_Ok; [|exact Hmark]. cbn [tape cursor].
  rewrite length_reverse in *.
  exists body, c1, c2. split; [done|]. split; [done|]. split; [|split; [|done]].
  - intros j x Hj. rewrite <- positions_upto_reverse. by apply Hkeep.
  - intros pos Hpos. rewrite <- positions_before_reverse.
    apply Hput. by apply elem_of_reverse.
Qed.

(** Order-safe insertion.  On non-blank text and a usable configuration,
    the character of the text at index [j] is found in the output at
    index [j] plus the number of marked positions at or before [j]; the
    body is as long as the text plus the number of marked positions. *)
Theorem text_characters_shift text cfg g :
  usable cfg → strip text ≠ [] →
  ∃ out g',
    insert_adaptive_invisible_traps text cfg g = Ok (out, g')
    ∧ length out = (length text + length (insert_positions_of text cfg g) + 3)%nat
    ∧ ∀ j x, text !! j = Some x →
        out !! (j + positions_upto (insert_positions_of text cfg g) j)%nat
        = Some x.
Proof.
  intros Husable Hblank.
  destruct (insert_run text cfg g Husable Hblank)
    as (body & c1 & c2 & Hrun & Hlen & Hkeep & _).
  eexists _, _. split; [exact Hrun|]. split.
  - rewrite length_app, Hlen. cbn. lia.
  - intros j x Hj. apply lookup_app_l_Some. by apply Hkeep.
Qed.

Lemma text_characters_shift_witness :
  usable Severe ∧ strip (str "Hello world") ≠ []
  ∧ ∃ out g',
      insert_adaptive_invisible_traps (str "Hello world") Severe tapeid
      = Ok (out, g')
      ∧ length out
        = (length (str "Hello world")
           + length (insert_positions_of (str "Hello world") Severe tapeid) + 3)%nat
      ∧ ∀ j x, str "Hello world" !! j = Some x →
          out !! (j + positions_upto
                        (insert_positions_of (str "Hello world") Severe tapeid) j)%nat
          = Some x.
Proof.
  assert (usable Severe) as Husable
    by (apply registered_usable; by exists "Severe interference").
  assert (strip (str "Hello world") ≠ []) as Hblank by (vm_compute; discriminate).
  split; [exact Husable|]. split; [exact Hblank|].
  exact (text_characters_shift (str "Hello world") Severe tapeid Husable Hblank).
Defined.

(** Insertions happen only at gated valid boundaries.  For every marked
    position [pos] the output holds, side by side, the character before
    the boundary, one character of the level's pools, and the character
    after the boundary; the two neighbours pass [is_valid_insert_pos], and
    the eligible-boundary counter at [pos] is a multiple of the
    interval. *)
Theorem inserted_between_valid_neighbours text cfg g :
  usable cfg → strip text ≠ [] →
  ∃ out g',
    insert_adaptive_invisible_traps text cfg g = Ok (out, g')
    ∧ ∀ pos, pos ∈ insert_positions_of text cfg g →
        let k := positions_before (insert_positions_of text cfg g) pos in
        ∃ prev_char c next_char,
          text !! (pos - 1)%nat = Some prev_char
          ∧ text !! pos = Some next_char
          ∧ is_valid_insert_pos prev_char next_char = true
          ∧ counter_at text pos `mod` Interval cfg = 0
          ∧ c ∈ level_chars (Character_Pool cfg)
          ∧ out !! (pos + k - 1)%nat = Some prev_char
          ∧ out !! (pos + k)%nat = Some c
          ∧ out !! (pos + k + 1)%nat = Some next_char.
Proof.
  intros Husable Hblank.
  destruct (insert_run text cfg g Husable Hblank)
    as (body & c1 & c2 & Hrun & _ & Hkeep & Hput & _).
  eexists _, _. split; [exact Hrun|]. intros pos Hpos k.
  pose proof Hpos as Hgated.
  rewrite insert_positions_of_spec in Hgated by apply Husable.
  eapply elem_of_sublist in Hgated; [|apply marks_of_sublist].
  pose proof (draw_boundaries_inside _ _ _ Hgated) as Hinside.
  apply list_elem_of_filter in Hgated as [Hgated _].
  unfold draw_gated, valid_at in Hgated.
  destruct (lookup_lt_is_Some_2 text (pos - 1)) as [prev_char Hprev]; [lia|].
  destruct (lookup_lt_is_Some_2 text pos) as [next_char Hnext]; [lia|].
  rewrite Hprev, Hnext in Hgated.
  apply andb_prop_elim in Hgated as [Hvalid Hmod].
  apply Is_true_true in Hvalid. apply bool_decide_unpack in Hmod.
  destruct (Hput pos Hpos) as (c & Hc & Hat).
  exists prev_char, c, next_char. do 5 (split; [done|]).
  assert (positions_upto (insert_positions_of text cfg g) (pos - 1) = k) as Hbefore.
  { subst k. unfold positions_upto, positions_before.
    f_equal. apply list_filter_iff. intros q. lia. }
  assert (positions_upto (insert_positions_of text cfg g) pos = S k) as Hupto.
  { subst k. rewrite <- positions_upto_reverse, <- positions_before_reverse.
    apply positions_upto_member; [|by apply elem_of_reverse].
    rewrite insert_positions_of_spec by apply Husable.
    apply sorted_reverse, marks_of_sorted. }
  split; [|split].
  - apply lookup_app_l_Some. specialize (Hkeep _ _ Hprev).
    rewrite Hbefore in Hkeep. by replace (pos + k - 1)%nat with (pos - 1 + k)%nat by lia.
  - by apply lookup_app_l_Some.
  - apply lookup_app_l_Some. specialize (Hkeep _ _ Hnext).
    rewrite Hupto in Hkeep. by replace (pos + k + 1)%nat with (pos + S k)%nat by lia.
Qed.

Lemma inserted_between_valid_neighbours_witness :
  usable Severe ∧ strip (str "Hello world") ≠ []
  ∧ 2%nat ∈ insert_positions_of (str "Hello world") Severe tape0
  ∧ ∃ out g',
      insert_adaptive_invisible_traps (str "Hello world") Severe tape0
      = Ok (out, g')
      ∧ ∃ prev_char c next_char,
          str "Hello world" !! 1%nat = Some prev_char
          ∧ str "Hello world" !! 2%nat = Some next_char
          ∧ is_valid_insert_pos prev_char next_char = true
          ∧ c ∈ level_chars (Character_Pool Severe)
          ∧ out !! 1%nat = Some prev_char
          ∧ out !! 2%nat = Some c
          ∧ out !! 3%nat = Some next_char.
Proof.
  assert (usable Severe) as Husable
    by (apply registered_usable; by exists "Severe interference").
  assert (strip (str "Hello world") ≠ []) as Hblank by (vm_compute; discriminate).
  assert (2%nat ∈ insert_positions_of (str "Hello world") Severe tape0) as Hpos
    by (apply (bool_decide_eq_true_1 _); vm_compute; reflexivity).
  split; [exact Husable|]. split; [exact Hblank|]. split; [exact Hpos|].
  destruct (inserted_between_valid_neighbours (str "Hello world") Severe tape0
              Husable Hblank) as (out & g' & Hrun & Hlayout).
  exists out, g'. split; [exact Hrun|].
  destruct (Hlayout 2%nat Hpos)
    as (prev_char & c & next_char & H1 & H2 & H3 & _ & H5 & H6 & H7 & H8).
  exists prev_char, c, next_char. repeat split; assumption.
Defined.

(* ===================================================================== *)
(** ** Further properties: how many insertions, how many draws          *)
(* ===================================================================== *)

Lemma draw_nonneg g k : 0 ≤ Qnum (draw g k) < 2 ^ 53.
Proof.
  unfold draw. cbn [Qnum].
  assert (tape g k `mod` 2 ^ 53 < 2 ^ 53)%N as Hlt
    by (apply N.mod_lt; by vm_compute).
  split; [apply N2Z.is_nonneg|].
  change (2 ^ 53) with (Z.of_N (2 ^ 53)). by apply N2Z.inj_lt.
Qed.


Lemma marks_of_always g prob k bs :
  (1 <= prob)%Q → marks_of g prob k bs = bs.
Proof.
  intros Hprob. revert k. induction bs as [|b bs IH]; intros k; [done|].
  cbn [marks_of]. rewrite IH.
  assert (Qltb (draw g k) prob = true) as ->; [|done].
  unfold Qltb. apply Z.ltb_lt.
  pose proof (draw_nonneg g k) as Hdraw.
  unfold Qle in Hprob. cbn in Hprob.
  change (Z.pos (Qden (draw g k))) with (2 ^ 53). nia.
Qed.



(** With a probability of 1 or more every gated boundary is marked: for a
    positive interval the output has exactly one inserted character for
    every [interval] eligible boundaries, whatever the random source. *)
Theorem probability_one_always_inserts text cfg g :
  usable cfg → strip text ≠ [] → 0 < Interval cfg →
  (1 <= Implantation_Probability cfg)%Q →
  insert_positions_of text cfg g = draw_boundaries text (Interval cfg)
  ∧ ∃ out g',
      insert_adaptive_invisible_traps text cfg g = Ok (out, g')
      ∧ Z.of_nat (length out)
        = Z.of_nat (length text)
          + Z.of_nat (length (eligible_boundaries text)) / Interval cfg + 3.
Proof.
  intros Husable Hblank Hpos Hprob.
  assert (insert_positions_of text cfg g = draw_boundaries text (Interval cfg))
    as Hmarks.
  { rewrite insert_positions_of_spec by lia. by apply marks_of_always. }
  split; [exact Hmarks|].
  destruct (insert_structure text cfg g Husable Hblank)
    as (body & c1 & c2 & Hrun & _ & Hlen & _).
  rewrite marks_of_always in Hlen by done.
  eexists _, _. split; [exact Hrun|].
  rewrite <- length_draw_boundaries by done.
  rewrite length_app, Hlen. cbn [length]. lia.
Qed.

Lemma probability_one_always_inserts_witness :
  insert_positions_of (str "Hello world") (mkCfg 2 1 ["Basic Pool"]) tapeid
  = draw_boundaries (str "Hello world") 2.
Proof.
  apply (probability_one_always_inserts (str "Hello world")
           (mkCfg 2 1 ["Basic Pool"]) tapeid).
  - split; [discriminate|]. split; [|vm_compute; discriminate].
    repeat constructor. eexists. reflexivity.
  - vm_compute. discriminate.
  - reflexivity.
  - vm_compute. discriminate.
Defined.

(** Insertion rate.  For a positive interval the body grows by at most one
    character for every [interval] eligible boundaries. *)
Theorem insertion_rate_bound text cfg g :
  usable cfg → strip text ≠ [] → 0 < Interval cfg →
  ∃ out g',
    insert_adaptive_invisible_traps text cfg g = Ok (out, g')
    ∧ Z.of_nat (length out)
      ≤ Z.of_nat (length text)
        + Z.of_nat (length (eligible_boundaries text)) / Interval cfg + 3.
Proof.
  intros Husable Hblank Hpos.
  destruct (insert_structure text cfg g Husable Hblank)
    as (body & c1 & c2 & Hrun & _ & Hlen & _).
  eexists _, _. split; [exact Hrun|].
  rewrite <- length_draw_boundaries by done.
  pose proof (sublist_length _ _
    (marks_of_sublist g (Implantation_Probability cfg) (cursor g)
       (draw_boundaries text (Interval cfg)))) as Hmarks.
  rewrite length_app, Hlen. cbn [length]. lia.
Qed.

Lemma insertion_rate_bound_witness :
  ∃ out g',
    insert_adaptive_invisible_traps (str "Hello world") Mild tape0 = Ok (out, g')
    ∧ Z.of_nat (length out)
      ≤ Z.of_nat (length (str "Hello world"))
        + Z.of_nat (length (eligible_boundaries (str "Hello world")))
          / Interval Mild + 3.
Proof.
  apply (insertion_rate_bound (str "Hello world") Mild tape0).
  - apply registered_usable. by exists "Mild Interference".
  - vm_compute. discriminate.
  - reflexivity.
Defined.





(* ===================================================================== *)
(** ** Further properties: the table of disqualifying characters        *)
(* ===================================================================== *)

Ltac member_by_computation :=
  apply (bool_decide_eq_true_1 _); vm_compute; reflexivity.

Ltac split_range c lo :=
  first
    [ lia
    | destruct (decide (c = lo)) as [->|?];
      [ member_by_computation
      | let lo' := eval vm_compute in (N.succ lo) in split_range c lo' ] ].

Lemma INVALID_POS_CHARS_ranges c :
  c ∈ INVALID_POS_CHARS ↔ disqualifies c = true.
Proof.
  split.
  - intros Hc.
    let table := eval vm_compute in INVALID_POS_CHARS in
    change INVALID_POS_CHARS with table in Hc.
    repeat (apply elem_of_cons in Hc as [->|Hc]; [reflexivity|]).
    by apply elem_of_nil in Hc.
  - unfold disqualifies. rewrite !orb_true_iff, !andb_true_iff.
    rewrite !N.leb_le, !N.eqb_eq.
    intros [[[[[[[[[[Hlo Hhi] | [Hlo Hhi]] | [Hlo Hhi]] | [Hlo Hhi]]
                | ->] | ->] | ->] | ->] | ->] | ->];
      try member_by_computation.
    + split_range c 33%N.
    + split_range c 58%N.
    + split_range c 91%N.
    + split_range c 123%N.
Qed.

(** The validity predicate, read by ranges.  A boundary is valid exactly
    when neither neighbour is an ASCII punctuation character, a space,
    U+00E3, U+20AC or one of the letters n, r, t. *)
Theorem is_valid_insert_pos_by_ranges prev_char next_char :
  is_valid_insert_pos prev_char next_char = true
  ↔ disqualifies prev_char = false ∧ disqualifies next_char = false.
Proof.
  unfold is_valid_insert_pos.
  destruct (bool_decide_reflect (prev_char ∈ INVALID_POS_CHARS)) as [Hp|Hp],
           (bool_decide_reflect (next_char ∈ INVALID_POS_CHARS)) as [Hn|Hn];
    rewrite INVALID_POS_CHARS_ranges in Hp, Hn; cbn [orb];
    destruct (disqualifies prev_char), (disqualifies next_char);
    split; try done; try (by intros [? ?]).
Qed.

(* ===================================================================== *)
(** ** Further properties: the input and copy handlers                  *)
(* ===================================================================== *)

Lemma lstrip_head_nonspace s c : head (lstrip s) = Some c → isspace c = false.
Proof.
  induction s as [|c' s IH]; cbn [lstrip]; [done|].
  destruct (isspace c') eqn:Hc'; [done|]. by intros [= <-].
Qed.

Lemma lstrip_fixed s :
  (∀ c, head s = Some c → isspace c = false) → lstrip s = s.
Proof.
  destruct s as [|c s]; [done|]. intros Hhead. cbn [lstrip].
  by rewrite (Hhead c).
Qed.

Lemma lstrip_suffix s :
  ∃ pre, s = pre ++ lstrip s ∧ Forall (λ c, isspace c) pre.
Proof.
  induction s as [|c s (pre & Hs & Hpre)]; [by exists []|].
  cbn [lstrip]. destruct (isspace c) eqn:Hc.
  - exists (c :: pre). split; [cbn; by f_equal|].
    constructor; [by rewrite Hc | done].
  - by exists [].
Qed.

Lemma lstrip_app_space pre s :
  Forall (λ c, isspace c) pre → lstrip (pre ++ s) = lstrip s.
Proof.
  induction 1 as [|c pre Hc _ IH]; [done|]. cbn [app lstrip].
  by destruct (isspace c).
Qed.

Lemma lstrip_last s c : last (lstrip s) = Some c → last s = Some c.
Proof.
  destruct (lstrip_suffix s) as (pre & Hs & _). intros Hlast.
  rewrite Hs, last_app. by rewrite Hlast.
Qed.

(** A stripped string neither begins nor ends with whitespace. *)
Lemma strip_ends s :
  (∀ c, head (strip s) = Some c → isspace c = false)
  ∧ (∀ c, last (strip s) = Some c → isspace c = false).
Proof.
  unfold strip, rstrip. split; intros c.
  - rewrite head_reverse. intros Hc%lstrip_last.
    rewrite last_reverse in Hc. by eapply lstrip_head_nonspace.
  - rewrite last_reverse. apply lstrip_head_nonspace.
Qed.

Lemma strip_fixed s :
  (∀ c, head s = Some c → isspace c = false) →
  (∀ c, last s = Some c → isspace c = false) →
  strip s = s.
Proof.
  intros Hhead Hlast. unfold strip, rstrip.
  rewrite (lstrip_fixed s) by done.
  rewrite lstrip_fixed; [apply reverse_involutive|].
  intros c. rewrite head_reverse. apply Hlast.
Qed.

Lemma strip_idemp s : strip (strip s) = strip s.
Proof. apply strip_fixed; apply strip_ends. Qed.

(** The input is the stripped input between two runs of whitespace. *)
Lemma strip_decompose s :
  ∃ pre post,
    s = pre ++ strip s ++ post
    ∧ Forall (λ c, isspace c) pre ∧ Forall (λ c, isspace c) post.
Proof.
  destruct (lstrip_suffix s) as (pre & Hs & Hpre).
  destruct (lstrip_suffix (reverse (lstrip s))) as (post & Ht & Hpost).
  exists pre, (reverse post). split; [|split; [done | by apply Forall_reverse]].
  unfold strip, rstrip. rewrite <- reverse_app, <- Ht, reverse_involutive.
  exact Hs.
Qed.

(** What [process_input] hands to the result box.  Blank input gives the
    warning for every level name, registered or not, and reads neither
    the registry nor the random source.  On other input and a registered
    level name the text that is transformed is the input without its
    leading and trailing whitespace: the result is that stripped text
    with level characters put in, a space and two level characters; it is
    never empty and begins with the first non-whitespace character of the
    input. *)
Theorem process_input_cases input_text selected_level g :
  (strip input_text = [] →
   process_input input_text selected_level g = Ok (None, g))
  ∧ (strip input_text ≠ [] →
     ∀ cfg, INTERFERENCE_LEVELS !! selected_level = Some cfg →
     ∃ pre post body c1 c2 g' first_char,
       input_text = pre ++ strip input_text ++ post
       ∧ Forall (λ c, isspace c) pre ∧ Forall (λ c, isspace c) post
       ∧ process_input input_text selected_level g
         = Ok (Some (body ++ [space; c1; c2]), g')
       ∧ injected (.∈ level_chars (Character_Pool cfg)) (strip input_text) body
       ∧ c1 ∈ level_chars (Character_Pool cfg)
       ∧ c2 ∈ level_chars (Character_Pool cfg)
       ∧ head (strip input_text) = Some first_char
       ∧ head (body ++ [space; c1; c2]) = Some first_char
       ∧ isspace first_char = false).
Proof.
  split.
  - intros Hblank. unfold process_input. by rewrite bool_decide_eq_true_2.
  - intros Hblank cfg Hcfg.
    destruct (strip_decompose input_text) as (pre & post & Hinput & Hpre & Hpost).
    assert (strip (strip input_text) ≠ []) as Hblank' by (by rewrite strip_idemp).
    destruct (insert_structure (strip input_text) cfg g)
      as (body & c1 & c2 & Hrun & Hinj & _ & Hhead & _ & Hc1 & Hc2);
      [apply registered_usable; by exists selected_level | done |].
    destruct (strip input_text) as [|first_char rest] eqn:Hstrip; [done|].
    eexists pre, post, body, c1, c2, _, first_char.
    do 3 (split; [done|]). split; [|split; [done|]].
    + unfold process_input. rewrite Hstrip.
      rewrite bool_decide_eq_false_2 by done.
      erewrite bind_Ok; [|unfold dict_getitem; rewrite Hcfg; reflexivity].
      erewrite bind_Ok; [|exact Hrun]. reflexivity.
    + do 3 (split; [done|]). split.
      * destruct body; [done|]. cbn in *. done.
      * eapply (proj1 (strip_ends input_text)). by rewrite Hstrip.
Qed.

Lemma process_input_cases_witness :
  process_input (str "   ") "No such level" tape0 = Ok (None, tape0)
  ∧ ∃ body c1 c2 g',
      process_input (str "  Hello world ") "Severe interference" tapeid
      = Ok (Some (body ++ [space; c1; c2]), g')
      ∧ injected (.∈ level_chars (Character_Pool Severe)) (str "Hello world") body.
Proof.
  split.
  - apply (process_input_cases (str "   ") "No such level" tape0). reflexivity.
  - destruct (process_input_cases (str "  Hello world ") "Severe interference"
                tapeid) as [_ Hok].
    destruct (Hok ltac:(vm_compute; discriminate) Severe eq_refl)
      as (pre & post & body & c1 & c2 & g' & first_char
          & _ & _ & _ & Hrun & Hinj & _).
    exists body, c1, c2, g'. split; [exact Hrun | exact Hinj].
Defined.

Lemma strip_output body c1 c2 :
  (∀ c, head body = Some c → isspace c = false) →
  (∀ c, last body = Some c → isspace c = false) →
  body ≠ [] →
  strip (body ++ [space; c1; c2])
  = if isspace c2 then if isspace c1 then body else body ++ [space; c1]
    else body ++ [space; c1; c2].
Proof.
  intros Hhead Hlast Hne. unfold strip, rstrip.
  rewrite (lstrip_fixed (body ++ _)).
  2:{ intros c. destruct body; [done|]. apply Hhead. }
  replace (body ++ [space; c1; c2]) with ((body ++ [space; c1]) ++ [c2])
    by (by rewrite <- app_assoc).
  rewrite reverse_snoc. cbn [lstrip].
  destruct (isspace c2); [|by rewrite <- reverse_snoc, reverse_involutive].
  replace (body ++ [space; c1]) with ((body ++ [space]) ++ [c1])
    by (by rewrite <- app_assoc).
  rewrite reverse_snoc. cbn [lstrip].
  destruct (isspace c1); [|by rewrite <- reverse_snoc, reverse_involutive].
  rewrite reverse_snoc. cbn [lstrip].
  change (isspace space) with true. cbn match.
  rewrite lstrip_fixed; [apply reverse_involutive|].
  intros c. rewrite head_reverse. apply Hlast.
Qed.

(** What [copy_result] puts on the clipboard for a result of
    [process_input].  When the plain text of the result box is what
    [process_input] returned for a registered level, the clipboard gets
    the result itself if its last character is not whitespace; if the
    last marker character is whitespace it is stripped, and if both
    marker characters are whitespace the whole marker with its space is
    stripped.  Under the Mild level, whose pool has no whitespace
    character, the clipboard always gets the result unchanged. *)
Theorem copy_result_of_processed input_text selected_level cfg g :
  INTERFERENCE_LEVELS !! selected_level = Some cfg →
  strip input_text ≠ [] →
  ∃ body c1 c2 g',
    process_input input_text selected_level g
    = Ok (Some (body ++ [space; c1; c2]), g')
    ∧ copy_result (body ++ [space; c1; c2])
      = Some (if isspace c2 then if isspace c1 then body else body ++ [space; c1]
              else body ++ [space; c1; c2])
    ∧ (cfg = Mild →
       copy_result (body ++ [space; c1; c2]) = Some (body ++ [space; c1; c2])).
Proof.
  intros Hcfg Hblank.
  assert (strip (strip input_text) ≠ []) as Hblank' by (by rewrite strip_idemp).
  destruct (insert_structure (strip input_text) cfg g)
    as (body & c1 & c2 & Hrun & _ & Hlen & Hhead & Hlast & Hc1 & Hc2);
    [apply registered_usable; by exists selected_level | done |].
  assert (body ≠ []) as Hne.
  { intros ->. destruct (strip input_text); [done | discriminate Hlen]. }
  assert (copy_result (body ++ [space; c1; c2])
          = Some (if isspace c2
                  then if isspace c1 then body else body ++ [space; c1]
                  else body ++ [space; c1; c2])) as Hcopy.
  { unfold copy_result. rewrite strip_output; [| | |done].
    - rewrite bool_decide_eq_false_2; [done|].
      destruct (isspace c2), (isspace c1); try done; by destruct body.
    - rewrite Hhead. apply strip_ends.
    - rewrite Hlast. apply strip_ends. }
  eexists body, c1, c2, _. split; [|split; [exact Hcopy|]].
  - unfold process_input. rewrite bool_decide_eq_false_2 by done.
    erewrite bind_Ok; [|unfold dict_getitem; rewrite Hcfg; reflexivity].
    erewrite bind_Ok; [|exact Hrun]. reflexivity.
  - intros ->. rewrite Hcopy.
    assert (isspace c2 = false) as ->; [|done].
    change (level_chars (Character_Pool Mild))
      with [0x200B; 0x200C; 0x200D]%N in Hc2.
    by repeat (apply elem_of_cons in Hc2 as [->|Hc2]; [reflexivity|]);
      apply elem_of_nil in Hc2.
Qed.

Lemma copy_result_of_processed_witness :
  ∃ body c1 c2 g',
    process_input (str " Hello world ") "Mild Interference" tapeid
    = Ok (Some (body ++ [space; c1; c2]), g')
    ∧ copy_result (body ++ [space; c1; c2]) = Some (body ++ [space; c1; c2]).
Proof.
  destruct (copy_result_of_processed (str " Hello world ") "Mild Interference"
              Mild tapeid eq_refl ltac:(vm_compute; discriminate))
    as (body & c1 & c2 & g' & Hrun & _ & Hmild).
  exists body, c1, c2, g'. split; [exact Hrun | exact (Hmild eq_refl)].
Defined.

(** The shipped levels are safe.  For a level name of
    [INTERFERENCE_LEVELS], [process_input] raises on no input and no
    random source; it gives the warning exactly on blank input. *)
Theorem registered_levels_never_raise input_text selected_level g :
  is_Some (INTERFERENCE_LEVELS !! selected_level) →
  ∃ shown g',
    process_input input_text selected_level g = Ok (shown, g')
    ∧ (shown = None ↔ strip input_text = []).
Proof.
  intros [cfg Hcfg]. unfold process_input.
  destruct (decide (strip input_text = [])) as [Hblank|Hblank].
  - rewrite bool_decide_eq_true_2 by done. by exists None, g.
  - rewrite bool_decide_eq_false_2 by done.
    erewrite bind_Ok; [|unfold dict_getitem; rewrite Hcfg; reflexivity].
    destruct (insert_structure (strip input_text) cfg g)
      as (body & c1 & c2 & Hrun & _).
    + apply registered_usable. by exists selected_level.
    + by rewrite strip_idemp.
    + erewrite bind_Ok; [|exact Hrun]. eexists (Some _), _.
      split; [reflexivity|]. split; [discriminate | done].
Qed.

Lemma registered_levels_never_raise_witness :
  ∃ shown g',
    process_input (str "Hello, world!") "Moderate Interference" tapeid
    = Ok (shown, g')
    ∧ (shown = None ↔ strip (str "Hello, world!") = []).
Proof.
  apply (registered_levels_never_raise (str "Hello, world!")
           "Moderate Interference" tapeid).
  eexists. reflexivity.
Defined.
